(** * The mediator state machine of raiden/transfer/mediated_transfer/mediator.py

    A shallow embedding of the mediator's transition function.  Python
    integers are [Z]; addresses, tokens, hashlocks and secrets are opaque
    values compared with [==] and are represented by [Z]; the string
    sentinels of the pair sub-states are [string]s.  The source mutates the
    state in place and may raise: every handler is a function from the state
    to a [result] that carries the mutated state, or the exception. *)

From Stdlib Require Import ZArith List String Bool Lia Sorted.
Import ListNotations.

Local Open Scope string_scope.
Local Open Scope list_scope.
Local Open Scope Z_scope.

(** ** Exceptions *)

Inductive exn : Type :=
| AssertionError
| AttributeError
| IndexError
| TypeError
| UnboundLocalError.

Inductive result (A : Type) : Type :=
| Ok (a : A)
| Raise (e : exn).

Arguments Ok {A} a.
Arguments Raise {A} e.

Definition bind {A B : Type} (c : result A) (k : A -> result B) : result B :=
  match c with
  | Ok a => k a
  | Raise e => Raise e
  end.

Notation "x <- c ;; k" := (bind c (fun x => k))
  (at level 61, c at next level, right associativity).
Notation "' pat <- c ;; k" := (bind c (fun x => match x with pat => k end))
  (at level 61, pat pattern, c at next level, right associativity).
Notation "c ;;; k" := (bind c (fun _ => k))
  (at level 61, right associativity).

(** The [assert] statement. *)
Definition assert (b : bool) : result unit :=
  if b then Ok tt else Raise AssertionError.

(** ** Data model *)

Definition address := Z.

(** [LockedTransferState(identifier, amount, token, target, expiration,
    hashlock, secret)].  The class lives in state.py, which is not among the
    sources.  The mediator also reads and writes an attribute [state] on a
    transfer (lines 362-366, 383-388, 501-502): [state_attr] is that
    attribute, [None] when the object does not have it. *)
Record LockedTransferState : Type := mkLockedTransferState {
  identifier : Z;
  amount : Z;
  token : Z;
  target : address;
  expiration : Z;
  hashlock : Z;
  secret : option Z;
  state_attr : option string
}.

(** Modelled from the spec: the constructor of LockedTransferState (state.py
    is missing).  Section 3 gives a transfer exactly the seven fields the
    constructor is called with, so a freshly built transfer has no [state]
    attribute. *)
Definition new_LockedTransferState
    (identifier amount token : Z) (target : address) (expiration hashlock : Z)
    (secret : option Z) : LockedTransferState :=
  mkLockedTransferState identifier amount token target expiration hashlock
                        secret None.

(** Reading [transfer.state]. *)
Definition get_state (transfer : LockedTransferState) : result string :=
  match state_attr transfer with
  | Some s => Ok s
  | None => Raise AttributeError
  end.

(** [transfer.state = s]. *)
Definition set_state (transfer : LockedTransferState) (s : string)
  : LockedTransferState :=
  mkLockedTransferState (identifier transfer) (amount transfer)
    (token transfer) (target transfer) (expiration transfer)
    (hashlock transfer) (secret transfer) (Some s).

(** [transfer.secret = s]. *)
Definition set_transfer_secret (transfer : LockedTransferState) (s : Z)
  : LockedTransferState :=
  mkLockedTransferState (identifier transfer) (amount transfer)
    (token transfer) (target transfer) (expiration transfer)
    (hashlock transfer) (Some s) (state_attr transfer).

Record RouteState : Type := mkRouteState {
  node_address : address;
  channel_address : address;
  available_balance : Z;
  settle_timeout : Z;
  reveal_timeout : Z;
  close_block : option Z
}.

Record RoutesState : Type := mkRoutesState {
  available_routes : list RouteState;
  ignored_routes : list RouteState;
  refund_routes : list RouteState
}.

Record MediationPairState : Type := mkPair {
  payer_route : RouteState;
  payer_transfer : LockedTransferState;
  payee_route : RouteState;
  payee_transfer : LockedTransferState;
  payer_state : string;
  payee_state : string
}.

(** Modelled from the spec: the constructor of MediationPairState (state.py
    is missing); both sides start in their pending sub-state (section 3). *)
Definition new_MediationPairState
    (payer_route : RouteState) (payer_transfer : LockedTransferState)
    (payee_route : RouteState) (payee_transfer : LockedTransferState)
  : MediationPairState :=
  mkPair payer_route payer_transfer payee_route payee_transfer
         "payer_pending" "payee_pending".

(** Modelled from the spec: [MediationPairState.valid_payee_states]
    (state.py is missing), the payee-side alphabet of section 3. *)
Definition valid_payee_states : list string :=
  [ "payee_pending"; "payee_secret_revealed"; "payee_contract_withdraw";
    "payee_balance_proof"; "payee_expired" ].

Definition with_payer_state (pair : MediationPairState) (s : string) :=
  mkPair (payer_route pair) (payer_transfer pair) (payee_route pair)
         (payee_transfer pair) s (payee_state pair).

Definition with_payee_state (pair : MediationPairState) (s : string) :=
  mkPair (payer_route pair) (payer_transfer pair) (payee_route pair)
         (payee_transfer pair) (payer_state pair) s.

Definition with_payer_transfer (pair : MediationPairState)
    (t : LockedTransferState) :=
  mkPair (payer_route pair) t (payee_route pair) (payee_transfer pair)
         (payer_state pair) (payee_state pair).

Definition with_payee_transfer (pair : MediationPairState)
    (t : LockedTransferState) :=
  mkPair (payer_route pair) (payer_transfer pair) (payee_route pair) t
         (payer_state pair) (payee_state pair).

Record MediatorState : Type := mkMediatorState {
  our_address : address;
  routes : RoutesState;
  block_number : Z;
  state_hashlock : Z;
  state_secret : option Z;
  transfers_pair : list MediationPairState
}.

(** Modelled from the spec: the constructor [MediatorState(our_address,
    routes, block_number, hashlock)] (state.py is missing): no secret and no
    pair yet (section 3, lifecycle). *)
Definition new_MediatorState (our_address : address) (routes : RoutesState)
    (block_number hashlock : Z) : MediatorState :=
  mkMediatorState our_address routes block_number hashlock None [].

Definition with_routes (state : MediatorState) (r : RoutesState) :=
  mkMediatorState (our_address state) r (block_number state)
    (state_hashlock state) (state_secret state) (transfers_pair state).

Definition with_block_number (state : MediatorState) (b : Z) :=
  mkMediatorState (our_address state) (routes state) b
    (state_hashlock state) (state_secret state) (transfers_pair state).

Definition with_secret (state : MediatorState) (s : Z) :=
  mkMediatorState (our_address state) (routes state) (block_number state)
    (state_hashlock state) (Some s) (transfers_pair state).

Definition with_transfers_pair (state : MediatorState)
    (l : list MediationPairState) :=
  mkMediatorState (our_address state) (routes state) (block_number state)
    (state_hashlock state) (state_secret state) l.

(** The outbound events (events.py is missing; the constructors take the
    arguments the source passes, named as in section 6). *)
Inductive Event : Type :=
| SendMediatedTransfer (transfer : LockedTransferState) (recipient : address)
| SendRefundTransfer (identifier token amount hashlock expiration : Z)
                     (recipient : address)
| SendRevealSecret (identifier : Z) (secret : option Z)
                   (recipient sender : address)
| SendBalanceProof (identifier : Z) (recipient : address)
| ContractSendWithdraw (transfer : LockedTransferState)
                       (channel_address : address).

(** Modelled from the spec: [mediatedtransfer(transfer, receiver)] of
    events.py (missing) builds the [SendMediatedTransfer {transfer,
    recipient}] of section 6. *)
Definition mediatedtransfer (transfer : LockedTransferState)
    (receiver : address) : Event :=
  SendMediatedTransfer transfer receiver.

(** The state changes the dispatcher tests for with [isinstance];
    [OtherStateChange] is an object of any other class. *)
Inductive StateChange : Type :=
| ActionInitMediator (our_address : address) (routes : RoutesState)
                     (block_number : Z) (from_route : RouteState)
                     (from_transfer : LockedTransferState)
| Block (block_number : Z)
| ActionRouteChange (route : RouteState)
| ReceiveTransferRefund (sender : address) (transfer : LockedTransferState)
| ReceiveSecretReveal (sender : address) (secret : Z)
| ReceiveBalanceProof (node_address : address)
| ContractReceiveWithdraw (channel_address sender : address) (secret : Z)
| OtherStateChange.

(** [Iteration(new_state, events)] of architecture.py. *)
Record Iteration : Type := mkIteration {
  new_state : option MediatorState;
  events : list Event
}.

(** ** Constants *)

Definition TRANSIT_BLOCKS : Z := 2.

Definition STATE_SECRET_KNOWN : list string :=
  [ "payee_secret_revealed"; "payee_contract_withdraw"; "payee_balance_proof";
    "payer_secret_revealed"; "payer_contract_withdraw"; "payer_balance_proof" ].

Definition STATE_TRANSFER_PAYED : list string :=
  [ "payee_contract_withdraw"; "payee_balance_proof";
    "payer_contract_withdraw"; "payer_balance_proof" ].

Definition STATE_TRANSFER_FINAL : list string :=
  [ "payee_contract_withdraw"; "payee_balance_proof"; "payee_expired";
    "payer_contract_withdraw"; "payer_balance_proof"; "payer_expired" ].

(** [s in tuple]. *)
Definition str_in (s : string) (l : list string) : bool :=
  existsb (String.eqb s) l.

(** ** Predicates *)

Definition is_lock_valid (block_number : Z) (transfer : LockedTransferState)
  : bool :=
  block_number <=? expiration transfer.

Definition is_safe_to_wait (block_number : Z) (transfer : LockedTransferState)
    (reveal_timeout : Z) : bool :=
  block_number <? expiration transfer - reveal_timeout.

Definition is_valid_refund (original_transfer : LockedTransferState)
    (refund_sender : address) (refund_transfer : LockedTransferState) : bool :=
  if refund_sender =? target original_transfer then false
  else
    (identifier original_transfer =? identifier refund_transfer) &&
    (amount original_transfer =? amount refund_transfer) &&
    (hashlock original_transfer =? hashlock refund_transfer) &&
    (target original_transfer =? target refund_transfer) &&
    (expiration original_transfer >? expiration refund_transfer).

Definition pair_finalized (pair : MediationPairState) : bool :=
  str_in (payee_state pair) STATE_TRANSFER_FINAL &&
  str_in (payer_state pair) STATE_TRANSFER_FINAL.

(** Both sides of the pair are in FINAL. *)
Definition both_final (pair : MediationPairState) : Prop :=
  In (payee_state pair) STATE_TRANSFER_FINAL /\
  In (payer_state pair) STATE_TRANSFER_FINAL.

Definition pair_pending (pair : MediationPairState) : bool :=
  negb (str_in (payee_state pair) STATE_TRANSFER_FINAL) ||
  negb (str_in (payer_state pair) STATE_TRANSFER_FINAL).

Definition get_pending_transfer_pairs (transfers_pair : list MediationPairState)
  : list MediationPairState :=
  filter pair_pending transfers_pair.

Definition get_timeout_blocks (payer_route : RouteState)
    (payer_transfer : LockedTransferState) (block_number : Z) : result Z :=
  blocks_until_settlement <-
    match close_block payer_route with
    | None => Ok (settle_timeout payer_route)
    | Some cb =>
        assert (block_number >=? cb) ;;;
        Ok (settle_timeout payer_route - (block_number - cb))
    end ;;
  let safe_payer_timeout :=
    Z.min blocks_until_settlement (expiration payer_transfer - block_number) in
  Ok (safe_payer_timeout - TRANSIT_BLOCKS).

Definition clear_if_finalized (iteration : Iteration) : result Iteration :=
  match new_state iteration with
  | None => Raise AttributeError
  | Some state =>
      let all_finalized := forallb pair_finalized (transfers_pair state) in
      if all_finalized then Ok (mkIteration None (events iteration))
      else Ok iteration
  end.

(** ** Route selection and pair construction *)

(** The [while] loop of [next_route]: [available] is popped from the front,
    rejected routes are appended to [ignored]. *)
Fixpoint next_route_loop (available ignored : list RouteState)
    (timeout_blocks transfer_amount : Z)
  : option RouteState * list RouteState * list RouteState :=
  match available with
  | [] => (None, [], ignored)
  | route :: rest =>
      let lock_timeout := timeout_blocks - reveal_timeout route in
      let enough_balance := available_balance route >=? transfer_amount in
      if enough_balance && (lock_timeout >? 0) then (Some route, rest, ignored)
      else next_route_loop rest (ignored ++ [route])
                           timeout_blocks transfer_amount
  end.

(** [next_route] returns the route and the mutated [routes_state]. *)
Definition next_route (routes_state : RoutesState)
    (timeout_blocks transfer_amount : Z) : option RouteState * RoutesState :=
  let '(route, available, ignored) :=
    next_route_loop (available_routes routes_state)
                    (ignored_routes routes_state)
                    timeout_blocks transfer_amount in
  (route, mkRoutesState available ignored (refund_routes routes_state)).

Definition next_transfer_pair (payer_route : RouteState)
    (payer_transfer : LockedTransferState) (routes_state : RoutesState)
    (timeout_blocks block_number : Z)
  : result (option MediationPairState * list Event * RoutesState) :=
  assert (timeout_blocks >? 0) ;;;
  assert (timeout_blocks <=? expiration payer_transfer - block_number) ;;;
  let '(payee_route, routes_state) :=
    next_route routes_state timeout_blocks (amount payer_transfer) in
  match payee_route with
  | Some payee_route =>
      assert (reveal_timeout payee_route <? timeout_blocks) ;;;
      let lock_timeout := timeout_blocks - reveal_timeout payee_route in
      let lock_expiration := lock_timeout + block_number in
      let payee_transfer :=
        new_LockedTransferState
          (identifier payer_transfer) (amount payer_transfer)
          (token payer_transfer) (target payer_transfer)
          lock_expiration (hashlock payer_transfer) (secret payer_transfer) in
      let transfer_pair :=
        new_MediationPairState payer_route payer_transfer
                               payee_route payee_transfer in
      let mediated_events :=
        [ mediatedtransfer payee_transfer (node_address payer_route) ] in
      Ok (Some transfer_pair, mediated_events, routes_state)
  | None => Ok (None, [], routes_state)
  end.

(** ** Secret propagation *)

Definition set_secret (state : MediatorState) (secret : Z) : MediatorState :=
  let set_pair pair :=
    with_payee_transfer
      (with_payer_transfer pair
         (set_transfer_secret (payer_transfer pair) secret))
      (set_transfer_secret (payee_transfer pair) secret) in
  with_transfers_pair (with_secret state secret)
                      (map set_pair (transfers_pair state)).

(** The [for back in reversed(transfers_pair)] loop; the list is given tail
    first, the flag is [wrong_reveal_order]. *)
Fixpoint set_payee_state_loop (backs : list MediationPairState)
    (payee_address : address) (new_payee_state : string)
  : list MediationPairState * bool :=
  match backs with
  | [] => ([], false)
  | back :: rest =>
      if node_address (payee_route back) =? payee_address
      then (with_payee_state back new_payee_state :: rest, false)
      else
        let '(rest', wrong) :=
          set_payee_state_loop rest payee_address new_payee_state in
        (back :: rest',
         negb (str_in (payee_state back) STATE_SECRET_KNOWN) || wrong)
  end.

Definition set_payee_state_and_check_reveal_order
    (transfers_pair : list MediationPairState) (payee_address : address)
    (new_payee_state : string)
  : result (list MediationPairState * list Event) :=
  assert (str_in new_payee_state valid_payee_states) ;;;
  let '(backs, wrong_reveal_order) :=
    set_payee_state_loop (rev transfers_pair) payee_address new_payee_state in
  if wrong_reveal_order then Ok (rev backs, []) else Ok (rev backs, []).

Definition events_for_refund_transfer (refund_route : RouteState)
    (refund_transfer : LockedTransferState) (timeout_blocks block_number : Z)
  : list Event :=
  let new_lock_timeout := timeout_blocks - reveal_timeout refund_route in
  if new_lock_timeout >? 0 then
    let new_lock_expiration := new_lock_timeout + block_number in
    [ SendRefundTransfer (identifier refund_transfer) (token refund_transfer)
        (amount refund_transfer) (hashlock refund_transfer)
        new_lock_expiration (node_address refund_route) ]
  else [].

(** Body of the loop of [events_for_revealsecret] for one pair. *)
Definition revealsecret_step (our_address : address)
    (pair : MediationPairState) : result (MediationPairState * list Event) :=
  payee_st <- get_state (payee_transfer pair) ;;
  payer_st <- get_state (payer_transfer pair) ;;
  let payee_secret := str_in payee_st STATE_SECRET_KNOWN in
  let payer_secret := str_in payer_st STATE_SECRET_KNOWN in
  if payee_secret && negb payer_secret then
    let pair :=
      with_payer_transfer pair
        (set_state (payer_transfer pair) "payer_secret_revealed") in
    Ok (pair,
        [ SendRevealSecret (identifier (payer_transfer pair))
            (secret (payer_transfer pair))
            (node_address (payer_route pair)) our_address ])
  else Ok (pair, []).

(** Body of the loop of [events_for_balanceproof] for one pair. *)
Definition balanceproof_step (block_number : Z)
    (pair : MediationPairState) : result (MediationPairState * list Event) :=
  payee_st <- get_state (payee_transfer pair) ;;
  let payee_knows_secret := str_in payee_st STATE_SECRET_KNOWN in
  let payee_payed := str_in payee_st STATE_TRANSFER_PAYED in
  let lock_valid := is_lock_valid block_number (payee_transfer pair) in
  if payee_knows_secret && negb payee_payed && lock_valid then
    let pair :=
      with_payee_transfer pair
        (set_state (payee_transfer pair) "payee_balance_proof") in
    Ok (pair,
        [ SendBalanceProof (identifier (payee_transfer pair))
            (node_address (payee_route pair)) ])
  else Ok (pair, []).

(** A [for pair in reversed(...)] loop whose body may mutate the pair and
    append events: [backs] is the list tail first. *)
Fixpoint for_each (body : MediationPairState ->
                          result (MediationPairState * list Event))
    (backs : list MediationPairState)
  : result (list MediationPairState * list Event) :=
  match backs with
  | [] => Ok ([], [])
  | back :: rest =>
      '(pair', evs) <- body back ;;
      '(rest', evs') <- for_each body rest ;;
      Ok (pair' :: rest', evs ++ evs')
  end.

Definition for_reversed (body : MediationPairState ->
                                result (MediationPairState * list Event))
    (transfers_pair : list MediationPairState)
  : result (list MediationPairState * list Event) :=
  '(backs, evs) <- for_each body (rev transfers_pair) ;;
  Ok (rev backs, evs).

Definition events_for_revealsecret (state : MediatorState)
  : result (MediatorState * list Event) :=
  '(pairs, evs) <- for_reversed (revealsecret_step (our_address state))
                                (transfers_pair state) ;;
  Ok (with_transfers_pair state pairs, evs).

Definition events_for_balanceproof (state : MediatorState)
  : result (MediatorState * list Event) :=
  '(pairs, evs) <- for_reversed (balanceproof_step (block_number state))
                                (transfers_pair state) ;;
  Ok (with_transfers_pair state pairs, evs).

Definition secret_learned (state : MediatorState) (secret : Z)
    (payee_address : address) (new_payee_state : string) : result Iteration :=
  assert (str_in new_payee_state STATE_SECRET_KNOWN) ;;;
  let state :=
    match state_secret state with
    | None => set_secret state secret
    | Some _ => state
    end in
  '(pairs, wrong_order) <-
    set_payee_state_and_check_reveal_order
      (transfers_pair state) payee_address new_payee_state ;;
  let state := with_transfers_pair state pairs in
  '(state, secret_reveal) <- events_for_revealsecret state ;;
  '(state, balance_proof) <- events_for_balanceproof state ;;
  Ok (mkIteration (Some state) (wrong_order ++ secret_reveal ++ balance_proof)).

(** ** Mediation *)

Definition mediate_transfer (state : MediatorState) (payer_route : RouteState)
    (payer_transfer : LockedTransferState) : result Iteration :=
  timeout_blocks <-
    get_timeout_blocks payer_route payer_transfer (block_number state) ;;
  '(transfer_pair, mediated_events, routes_state) <-
    (if timeout_blocks >? 0 then
       next_transfer_pair payer_route payer_transfer (routes state)
                          timeout_blocks (block_number state)
     else Ok (None, [], routes state)) ;;
  let state := with_routes state routes_state in
  match transfer_pair with
  | None =>
      let '(original_route, original_transfer) :=
        match transfers_pair state with
        | mkPair route0 transfer0 _ _ _ _ :: _ => (route0, transfer0)
        | [] => (payer_route, payer_transfer)
        end in
      let refund_events :=
        events_for_refund_transfer original_route original_transfer
                                   timeout_blocks (block_number state) in
      Ok (mkIteration (Some state) refund_events)
  | Some transfer_pair =>
      let state :=
        with_transfers_pair state (transfers_pair state ++ [transfer_pair]) in
      Ok (mkIteration (Some state) mediated_events)
  end.

(** ** Block handler *)

(** Body of the loop of [handle_block].  The source walks
    [reversed(pending_transfers_pairs)], a list of the pair objects of
    [state.transfers_pair] computed before the loop; the body only mutates
    the pair it visits, so a pair is walked exactly when it is pending on
    entry. *)
Definition handle_block_step (block_number : Z) (pair : MediationPairState)
  : result (MediationPairState * list Event) :=
  if pair_pending pair then
    payee_st <- get_state (payee_transfer pair) ;;
    payer_st <- get_state (payer_transfer pair) ;;
    let payee_payed := str_in payee_st STATE_TRANSFER_PAYED in
    let payer_payed := str_in payer_st STATE_TRANSFER_PAYED in
    let witdrawing := String.eqb (payer_state pair) "payer_waiting_withdraw" in
    let '(pair1, evs) :=
      if payee_payed && negb payer_payed && negb witdrawing then
        let safe_to_wait :=
          is_safe_to_wait block_number (payer_transfer pair)
                          (reveal_timeout (payer_route pair)) in
        if negb safe_to_wait then
          (with_payer_state pair "payer_waiting_withdraw",
           [ ContractSendWithdraw (payer_transfer pair)
               (channel_address (payer_route pair)) ])
        else (pair, [])
      else (pair, []) in
    if expiration (payer_transfer pair1) >? block_number then
      assert (negb (str_in (payee_state pair1) STATE_TRANSFER_PAYED)) ;;;
      Ok (with_payer_state (with_payee_state pair1 "payee_expired")
                           "payer_expired",
          evs)
    else Ok (pair1, evs)
  else Ok (pair, []).

Definition handle_block (state : MediatorState) (block_number : Z)
  : result Iteration :=
  let state := with_block_number state block_number in
  '(pairs, events) <- for_reversed (handle_block_step block_number)
                                   (transfers_pair state) ;;
  Ok (mkIteration (Some (with_transfers_pair state pairs)) events).

(** ** Intake handlers *)

(** [l[-1]]. *)
Fixpoint last_item {A : Type} (l : list A) : result A :=
  match l with
  | [] => Raise IndexError
  | [x] => Ok x
  | _ :: rest => last_item rest
  end.

Definition handle_refundtransfer (state : MediatorState) (sender : address)
    (transfer : LockedTransferState) : result Iteration :=
  assert (match state_secret state with None => true | Some _ => false end) ;;;
  transfer_pair <- last_item (transfers_pair state) ;;
  let payee_transfer := payee_transfer transfer_pair in
  if is_valid_refund payee_transfer sender transfer then
    let payer_route := payee_route transfer_pair in
    let payer_transfer := transfer in
    let state :=
      with_routes state
        (mkRoutesState (available_routes (routes state))
                       (ignored_routes (routes state))
                       (refund_routes (routes state) ++ [payer_route])) in
    mediate_transfer state payer_route payer_transfer
  else Ok (mkIteration (Some state) []).

(** The [for ... break] loop of [handle_contractwithdraw]: [Some] when the
    loop left through [break], with the pairs as mutated. *)
Fixpoint contractwithdraw_loop (pairs : list MediationPairState)
    (channel : address) : option (list MediationPairState) :=
  match pairs with
  | [] => None
  | p :: rest =>
      if channel_address (payer_route p) =? channel
      then Some (with_payer_state p "payer_contract_withdraw" :: rest)
      else option_map (cons p) (contractwithdraw_loop rest channel)
  end.

Definition handle_balanceproof (state : MediatorState) (node : address)
  : result Iteration :=
  let set_pair p :=
    if channel_address (payer_route p) =? node
    then with_payer_state p "payer_balance_proof" else p in
  let state := with_transfers_pair state (map set_pair (transfers_pair state)) in
  Ok (mkIteration (Some state) []).

Section Mediator.

(** [raiden.utils.sha3] and [transition.update_route] are not among the
    sources; they are taken as given. *)
Variable sha3 : Z -> Z.
Variable update_route : MediatorState -> RouteState -> MediatorState.

(** Modelled from the spec: [sha3] is the hash function of section 6, from
    secrets to hashlocks; called on [None] it raises. *)
Definition sha3_of (s : option Z) : result Z :=
  match s with
  | Some s => Ok (sha3 s)
  | None => Raise TypeError
  end.

Definition handle_secretreveal (state : MediatorState) (sender : address)
    (secret : Z) : result Iteration :=
  if sha3 secret =? state_hashlock state then
    secret_learned state secret sender "payee_secret_revealed"
  else Ok (mkIteration (Some state) []).

Definition handle_contractwithdraw (state : MediatorState)
    (channel sender : address) (secret : Z) : result Iteration :=
  h <- sha3_of (state_secret state) ;;
  assert (h =? state_hashlock state) ;;;
  match contractwithdraw_loop (transfers_pair state) channel with
  | Some _ =>
      (* the loop left through [break]: [iteration] was never bound *)
      Raise UnboundLocalError
  | None => secret_learned state secret sender "payee_contract_withdraw"
  end.

Definition handle_routechange (state : MediatorState) (route : RouteState)
  : result Iteration :=
  let state := update_route state route in
  Ok (mkIteration (Some state) []).

(** [state_transition]: a branch that binds no [iteration] makes the final
    [return clear_if_finalized(iteration)] raise. *)
Definition state_transition (state : option MediatorState)
    (state_change : StateChange) : result Iteration :=
  iteration <-
    match state with
    | None =>
        match state_change with
        | ActionInitMediator our_address routes block_number
                             from_route from_transfer =>
            let state :=
              new_MediatorState our_address routes block_number
                                (hashlock from_transfer) in
            mediate_transfer state from_route from_transfer
        | _ => Raise UnboundLocalError
        end
    | Some state =>
        match state_secret state with
        | None =>
            match state_change with
            | Block block_number => handle_block state block_number
            | ActionRouteChange route => handle_routechange state route
            | ReceiveTransferRefund sender transfer =>
                handle_refundtransfer state sender transfer
            | ReceiveSecretReveal sender secret =>
                handle_secretreveal state sender secret
            | ContractReceiveWithdraw channel sender secret =>
                handle_contractwithdraw state channel sender secret
            | _ => Raise UnboundLocalError
            end
        | Some _ =>
            match state_change with
            | Block block_number => handle_block state block_number
            | ReceiveSecretReveal sender secret =>
                handle_secretreveal state sender secret
            | ReceiveBalanceProof node => handle_balanceproof state node
            | ContractReceiveWithdraw channel sender secret =>
                handle_contractwithdraw state channel sender secret
            | _ => Raise UnboundLocalError
            end
        end
    end ;;
  clear_if_finalized iteration.

(** Feeding a sequence of state changes to the machine, starting from
    [state]. *)
Fixpoint run (state : option MediatorState) (changes : list StateChange)
  : result (option MediatorState) :=
  match changes with
  | [] => Ok state
  | state_change :: rest =>
      iteration <- state_transition state state_change ;;
      run (new_state iteration) rest
  end.

End Mediator.

(** ** The literal values of the end-to-end scenarios

    Node N mediates between A (upstream) and B (downstream); every route has
    [reveal_timeout = 5] and [settle_timeout = 50]. *)
Module Scenario.

Definition A : address := 1.
Definition N : address := 2.
Definition B : address := 3.
Definition C : address := 4.
Definition T : address := 9.

Definition S : Z := 7.
Definition sha3 (s : Z) : Z := s + 1000.
Definition H : Z := 1007.

(** A route provider that never changes anything. *)
Definition update_route (state : MediatorState) (route : RouteState)
  : MediatorState := state.

Definition R_A : RouteState := mkRouteState A 11 100 50 5 None.
Definition R_B : RouteState := mkRouteState B 13 10 50 5 None.
Definition R_C : RouteState := mkRouteState C 14 10 50 5 None.

Definition from_transfer : LockedTransferState :=
  new_LockedTransferState 1 10 5 T 100 H None.

(** Scenario 1: one available route, to B. *)
Definition init1 : StateChange :=
  ActionInitMediator N (mkRoutesState [R_B] [] []) 10 R_A from_transfer.

(** Scenario 2: no available route. *)
Definition init2 : StateChange :=
  ActionInitMediator N (mkRoutesState [] [] []) 10 R_A from_transfer.

(** Scenario 3: the payer lock expires at block 15. *)
Definition init3 : StateChange :=
  ActionInitMediator N (mkRoutesState [R_B] [] []) 10 R_A
    (new_LockedTransferState 1 10 5 T 15 H None).

(** The payee transfer and the pair that scenario 1 builds. *)
Definition payee_transfer1 : LockedTransferState :=
  new_LockedTransferState 1 10 5 T 53 H None.

Definition pair1 : MediationPairState :=
  new_MediationPairState R_A from_transfer R_B payee_transfer1.

Definition state1 : MediatorState :=
  mkMediatorState N (mkRoutesState [] [] []) 10 H None [pair1].

(** A pair whose transfers carry a [state] attribute: [payer_st] and
    [payee_st] on the transfers, [payer_state] and [payee_state] on the
    pair. *)
Definition pair_with (payer_st payee_st payer_state payee_state : string)
  : MediationPairState :=
  mkPair R_A (set_state from_transfer payer_st)
         R_B (set_state payee_transfer1 payee_st)
         payer_state payee_state.

Definition state_with (block_number : Z) (secret : option Z)
    (pair : MediationPairState) : MediatorState :=
  mkMediatorState N (mkRoutesState [] [] []) block_number H secret [pair].

End Scenario.

(** ** The secret walks, pair by pair

    What the two walks of [secret_learned] decide for one pair, read from
    the sub-states that the walks themselves consult. *)

(** The walks can read the sub-states of both transfers of the pair. *)
Definition readable (pair : MediationPairState) : Prop :=
  state_attr (payee_transfer pair) <> None /\
  state_attr (payer_transfer pair) <> None.

(** Payee side in SECRET_KNOWN, payer side not. *)
Definition reveal_due (pair : MediationPairState) : bool :=
  match state_attr (payee_transfer pair), state_attr (payer_transfer pair) with
  | Some payee_st, Some payer_st =>
      str_in payee_st STATE_SECRET_KNOWN &&
      negb (str_in payer_st STATE_SECRET_KNOWN)
  | _, _ => false
  end.

(** Payee side in SECRET_KNOWN, not in PAID, payee lock still valid. *)
Definition balance_proof_due (block_number : Z) (pair : MediationPairState)
  : bool :=
  match state_attr (payee_transfer pair) with
  | Some payee_st =>
      str_in payee_st STATE_SECRET_KNOWN &&
      negb (str_in payee_st STATE_TRANSFER_PAYED) &&
      is_lock_valid block_number (payee_transfer pair)
  | None => false
  end.

Definition reveal_update (pair : MediationPairState) : MediationPairState :=
  if reveal_due pair then
    with_payer_transfer pair
      (set_state (payer_transfer pair) "payer_secret_revealed")
  else pair.

Definition reveal_events (our_address : address) (pair : MediationPairState)
  : list Event :=
  if reveal_due pair then
    [ SendRevealSecret (identifier (payer_transfer pair))
        (secret (payer_transfer pair))
        (node_address (payer_route pair)) our_address ]
  else [].

Definition balance_proof_update (block_number : Z) (pair : MediationPairState)
  : MediationPairState :=
  if balance_proof_due block_number pair then
    with_payee_transfer pair
      (set_state (payee_transfer pair) "payee_balance_proof")
  else pair.

Definition balance_proof_events (block_number : Z) (pair : MediationPairState)
  : list Event :=
  if balance_proof_due block_number pair then
    [ SendBalanceProof (identifier (payee_transfer pair))
        (node_address (payee_route pair)) ]
  else [].

(** The state once the secret is recorded, and the pairs once the payee
    state of the revealing hop is set (steps 1 and 2 of [secret_learned]). *)
Definition learn_secret (state : MediatorState) (secret : Z) : MediatorState :=
  match state_secret state with
  | None => set_secret state secret
  | Some _ => state
  end.

Definition learn_pairs (state : MediatorState) (secret : Z)
    (payee_address : address) (new_payee_state : string)
  : list MediationPairState :=
  rev (fst (set_payee_state_loop
              (rev (transfers_pair (learn_secret state secret)))
              payee_address new_payee_state)).

(** Steps 1 and 2 leave the legs of a pair as they are, up to the secret
    and the payee state. *)
Definition same_transfer (t u : LockedTransferState) : Prop :=
  identifier u = identifier t /\
  expiration u = expiration t /\
  state_attr u = state_attr t.

Definition same_legs (p q : MediationPairState) : Prop :=
  payer_route q = payer_route p /\
  payee_route q = payee_route p /\
  same_transfer (payer_transfer p) (payer_transfer q) /\
  same_transfer (payee_transfer p) (payee_transfer q).

(** ** The ordering of the pairs *)

Definition payer_expiration (pair : MediationPairState) : Z :=
  expiration (payer_transfer pair).

(** [q], appended after [p], has the strictly smaller payer expiration. *)
Definition expiration_decreasing (p q : MediationPairState) : Prop :=
  payer_expiration q < payer_expiration p.

(** The payee lock does not outlive the payer lock. *)
Definition payee_before_payer (pair : MediationPairState) : Prop :=
  expiration (payee_transfer pair) <= payer_expiration pair.

(** A route reserves a number of blocks for the reveal. *)
Definition route_ok (route : RouteState) : Prop :=
  0 <= reveal_timeout route.

(** The routes that a state change brings in are well formed. *)
Definition change_ok (state_change : StateChange) : Prop :=
  match state_change with
  | ActionInitMediator _ routes _ _ _ =>
      Forall route_ok (available_routes routes)
  | ActionRouteChange route => route_ok route
  | _ => True
  end.

Definition pairs_ok (pairs : list MediationPairState) : Prop :=
  StronglySorted expiration_decreasing pairs /\
  Forall payee_before_payer pairs.

Definition mediator_invariant (state : MediatorState) : Prop :=
  pairs_ok (transfers_pair state) /\
  Forall route_ok (available_routes (routes state)).

Definition state_invariant (state : option MediatorState) : Prop :=
  match state with
  | None => True
  | Some state => mediator_invariant state
  end.

(** Both locks of [q] expire when those of [p] do. *)
Definition same_expirations (p q : MediationPairState) : Prop :=
  payer_expiration q = payer_expiration p /\
  expiration (payee_transfer q) = expiration (payee_transfer p).

(** What a handler may do to the state without breaking the ordering: the
    pairs keep their expirations and the routes stay. *)
Definition keeps_order (state state' : MediatorState) : Prop :=
  Forall2 same_expirations (transfers_pair state) (transfers_pair state') /\
  routes state' = routes state.

(** A second pair for the refund scenario: B refunds with a lock that
    expires at block 52 and the transfer is retried through C. *)
Module Refund.

Definition init : StateChange :=
  ActionInitMediator Scenario.N
    (mkRoutesState [Scenario.R_B; Scenario.R_C] [] []) 10
    Scenario.R_A Scenario.from_transfer.

Definition refund : StateChange :=
  ReceiveTransferRefund Scenario.B
    (new_LockedTransferState 1 10 5 Scenario.T 52 Scenario.H None).

Definition pair2 : MediationPairState :=
  new_MediationPairState Scenario.R_B
    (new_LockedTransferState 1 10 5 Scenario.T 52 Scenario.H None)
    Scenario.R_C
    (new_LockedTransferState 1 10 5 Scenario.T 45 Scenario.H None).

Definition state2 : MediatorState :=
  mkMediatorState Scenario.N
    (mkRoutesState [] [] [Scenario.R_B]) 10 Scenario.H None
    [Scenario.pair1; pair2].

End Refund.

(** ** Further vocabulary for the handlers *)

(** The test of [next_route] on one route. *)
Definition route_usable (timeout_blocks transfer_amount : Z)
    (route : RouteState) : Prop :=
  available_balance route >= transfer_amount /\
  timeout_blocks - reveal_timeout route > 0.

(** [r] as the list of the routes it holds. *)
Definition chosen_route (r : option RouteState) : list RouteState :=
  match r with
  | Some route => [route]
  | None => []
  end.

Definition is_withdraw (e : Event) : Prop :=
  match e with ContractSendWithdraw _ _ => True | _ => False end.

(** The two pairs differ at most in their sub-states. *)
Definition same_routes_and_transfers (p q : MediationPairState) : Prop :=
  payer_route q = payer_route p /\
  payer_transfer q = payer_transfer p /\
  payee_route q = payee_route p /\
  payee_transfer q = payee_transfer p.

(** Both transfers of the pair carry the secret. *)
Definition carries_secret (s : Z) (pair : MediationPairState) : Prop :=
  secret (payer_transfer pair) = Some s /\
  secret (payee_transfer pair) = Some s.

(** Routes that [next_route] rejects: too little balance, too long a reveal
    timeout. *)
Module Routes.

Definition poor : RouteState := mkRouteState 5 15 1 50 5 None.
Definition slow : RouteState := mkRouteState 6 16 10 100 60 None.

(** The payer channel was closed at block 8. *)
Definition closed : RouteState := mkRouteState 1 11 100 50 5 (Some 8).

End Routes.

(** What no handler other than mediation and the route update touches:
    the address, the hashlock, the routes and the number of pairs. *)
Definition same_frame (state state' : MediatorState) : Prop :=
  our_address state' = our_address state /\
  state_hashlock state' = state_hashlock state /\
  routes state' = routes state /\
  List.length (transfers_pair state') = List.length (transfers_pair state).

(** The safety margin of a pair: the payee lock expires at least
    [reveal_timeout + TRANSIT_BLOCKS] blocks before the payer lock. *)
Definition pair_margin (pair : MediationPairState) : Prop :=
  expiration (payee_transfer pair) + reveal_timeout (payee_route pair)
    + TRANSIT_BLOCKS
  <= expiration (payer_transfer pair).

(** [q] has the payee route and the expirations of [p]. *)
Definition same_margin (p q : MediationPairState) : Prop :=
  payee_route q = payee_route p /\
  expiration (payer_transfer q) = expiration (payer_transfer p) /\
  expiration (payee_transfer q) = expiration (payee_transfer p).

Definition margins_kept (state : option MediatorState) : Prop :=
  match state with
  | None => True
  | Some state => Forall pair_margin (transfers_pair state)
  end.

(** * Properties *)

(** ** The error monad *)

Lemma bind_Ok {A B : Type} (c : result A) (k : A -> result B) (b : B) :
  bind c k = Ok b -> exists a, c = Ok a /\ k a = Ok b.
Proof.
  destruct c as [a | e]; simpl; intros E; [ eauto | discriminate ].
Qed.

Lemma assert_Ok (b : bool) (u : unit) : assert b = Ok u -> b = true.
Proof. destruct b; simpl; [ reflexivity | discriminate ]. Qed.

Ltac inv_bind H :=
  let a := fresh "a" in
  let Ha := fresh "Ha" in
  apply bind_Ok in H; destruct H as (a & Ha & H).

Ltac inv_bind_as H x Hx :=
  apply bind_Ok in H; destruct H as (x & Hx & H).

(** ** Loops over the pairs *)

(** The outcome of a loop relates the pairs one to one. *)
Lemma for_each_Forall2 body backs backs' evs :
  for_each body backs = Ok (backs', evs) ->
  Forall2 (fun p p' => exists e, body p = Ok (p', e)) backs backs'.
Proof.
  revert backs' evs.
  induction backs as [| back rest IH]; simpl; intros backs' evs E.
  - injection E as <- <-. constructor.
  - inv_bind E. destruct a as [p' e].
    inv_bind E. destruct a as [rest' e'].
    injection E as <- <-.
    constructor; [ eauto | eapply IH; eauto ].
Qed.

Lemma Forall2_rev_both {X Y : Type} (R : X -> Y -> Prop) l l' :
  Forall2 R l l' -> Forall2 R (rev l) (rev l').
Proof.
  induction 1 as [| x y l l' Hxy Hll IH]; simpl.
  - constructor.
  - apply Forall2_app; [ exact IH | repeat constructor; exact Hxy ].
Qed.

Lemma for_reversed_Forall2 body pairs pairs' evs :
  for_reversed body pairs = Ok (pairs', evs) ->
  Forall2 (fun p p' => exists e, body p = Ok (p', e)) pairs pairs'.
Proof.
  unfold for_reversed. intros E.
  inv_bind E. destruct a as [backs evs0]. injection E as <- <-.
  apply for_each_Forall2 in Ha.
  apply Forall2_rev_both in Ha. rewrite rev_involutive in Ha. exact Ha.
Qed.

Lemma Forall2_nth_error_l {X Y : Type} (R : X -> Y -> Prop) l l' i x :
  Forall2 R l l' -> nth_error l i = Some x ->
  exists y, nth_error l' i = Some y /\ R x y.
Proof.
  intros HF. revert i.
  induction HF as [| a b l l' Hab HF IH]; intros [| i]; simpl; intros E;
    try discriminate.
  - injection E as <-. eauto.
  - apply IH; exact E.
Qed.

(** When every pair is handled without an exception the loop is a [map]
    over the pairs, and its events are those of the pairs, tail first. *)
Lemma for_each_map body f g backs :
  (forall p, In p backs -> body p = Ok (f p, g p)) ->
  for_each body backs = Ok (map f backs, flat_map g backs).
Proof.
  induction backs as [| back rest IH]; simpl; intros Hb.
  - reflexivity.
  - rewrite (Hb back) by (left; reflexivity). simpl.
    rewrite IH by (intros p Hp; apply Hb; right; exact Hp).
    reflexivity.
Qed.

Lemma for_reversed_map body f g pairs :
  (forall p, In p pairs -> body p = Ok (f p, g p)) ->
  for_reversed body pairs = Ok (map f pairs, flat_map g (rev pairs)).
Proof.
  intros Hb. unfold for_reversed.
  rewrite (for_each_map body f g).
  - simpl. rewrite <- map_rev, rev_involutive. reflexivity.
  - intros p Hp. apply Hb. apply in_rev. exact Hp.
Qed.

(** ** Membership in the tuples of sub-states *)

Lemma str_in_In (s : string) (l : list string) :
  str_in s l = true <-> In s l.
Proof.
  unfold str_in. rewrite existsb_exists. split.
  - intros (x & Hx & E). apply String.eqb_eq in E. subst x. exact Hx.
  - intros Hs. exists s. split; [ exact Hs | apply String.eqb_refl ].
Qed.

Lemma pair_finalized_both_final (pair : MediationPairState) :
  pair_finalized pair = true <-> both_final pair.
Proof.
  unfold pair_finalized, both_final.
  rewrite andb_true_iff, !str_in_In. reflexivity.
Qed.

(** ** The dispatcher *)

(** C2 (defect of the code): [state_transition] is not total.  A state
    change that the current phase does not accept leaves [iteration]
    unbound, and the final [return] raises UnboundLocalError instead of
    returning the state unchanged with no events: so does every state
    change other than ActionInitMediator delivered to the cleared state,
    and so do ActionInitMediator and any unknown state change delivered to
    an initialized state. *)
Theorem state_transition_unaccepted_raises :
  (forall sha3 update_route state_change,
     match state_change with
     | ActionInitMediator _ _ _ _ _ => True
     | _ => state_transition sha3 update_route None state_change
            = Raise UnboundLocalError
     end) /\
  (forall sha3 update_route state,
     state_transition sha3 update_route (Some state) OtherStateChange
     = Raise UnboundLocalError) /\
  (forall sha3 update_route state a r b fr ft,
     state_transition sha3 update_route (Some state)
                      (ActionInitMediator a r b fr ft)
     = Raise UnboundLocalError).
Proof.
  split; [ | split ].
  - intros sha3 update_route [] ; simpl; auto.
  - intros sha3 update_route state. unfold state_transition.
    destruct (state_secret state); reflexivity.
  - intros sha3 update_route state a r b fr ft. unfold state_transition.
    destruct (state_secret state); reflexivity.
Qed.

(** ** Refunds *)

(** C7, scenario 2 of the specification: with no available route the
    refund lock expires at block 53, not 93, because the timeout is capped
    by the payer route's [settle_timeout] of 50. *)
Lemma scenario2_refund_expiration_is_not_93 :
  exists iteration,
    state_transition Scenario.sha3 Scenario.update_route None Scenario.init2
    = Ok iteration /\
    events iteration = [ SendRefundTransfer 1 5 10 1007 53 Scenario.A ] /\
    events iteration <> [ SendRefundTransfer 1 5 10 1007 93 Scenario.A ].
Proof.
  eexists. split; [ reflexivity | ]. split; [ reflexivity | discriminate ].
Qed.

(** C7 (amended): [events_for_refund_transfer] emits exactly one
    SendRefundTransfer to the refund route's node, with the identifier,
    token, amount and hashlock of the transfer and the expiration
    [(timeout_blocks - reveal_timeout) + block_number], exactly when
    [timeout_blocks - reveal_timeout > 0], and nothing otherwise; in
    scenario 2 (block 10, expiration 100, settle_timeout 50, reveal_timeout
    5, no available route) [mediate_transfer] emits the refund with
    expiration 53 and leaves [transfers_pair] empty. *)
Theorem events_for_refund_transfer_spec :
  (forall refund_route refund_transfer timeout_blocks block_number,
     let refund :=
       SendRefundTransfer (identifier refund_transfer) (token refund_transfer)
         (amount refund_transfer) (hashlock refund_transfer)
         ((timeout_blocks - reveal_timeout refund_route) + block_number)
         (node_address refund_route) in
     let emitted :=
       events_for_refund_transfer refund_route refund_transfer
                                  timeout_blocks block_number in
     (emitted = [ refund ] <-> timeout_blocks - reveal_timeout refund_route > 0)
     /\
     (emitted = [] <-> timeout_blocks - reveal_timeout refund_route <= 0)) /\
  (exists state,
     mediate_transfer
       (new_MediatorState Scenario.N (mkRoutesState [] [] []) 10 Scenario.H)
       Scenario.R_A Scenario.from_transfer
     = Ok (mkIteration (Some state)
                       [ SendRefundTransfer 1 5 10 1007 53 Scenario.A ]) /\
     transfers_pair state = []).
Proof.
  split.
  - intros refund_route refund_transfer timeout_blocks block_number.
    cbv zeta. unfold events_for_refund_transfer.
    destruct (Z.gtb_spec (timeout_blocks - reveal_timeout refund_route) 0)
      as [Hgt | Hle].
    + split; split; intros; try reflexivity; try lia; discriminate.
    + split; split; intros; try reflexivity; try lia; discriminate.
  - eexists. split; reflexivity.
Qed.

(** ** Finalization *)

(** C10, scenario 3 of the specification: the transition does not
    return the initialized mediator state; no pair was created, so the
    finalizer clears the state. *)
Lemma scenario3_state_is_cleared :
  state_transition Scenario.sha3 Scenario.update_route None Scenario.init3
  = Ok (mkIteration None []) /\
  ~ (exists state,
       state_transition Scenario.sha3 Scenario.update_route None Scenario.init3
       = Ok (mkIteration (Some state) [])).
Proof.
  split; [ reflexivity | ].
  intros (state & E). vm_compute in E. discriminate.
Qed.

(** C10 (amended): processing the ActionInitMediator of scenario 3 (no route
    selectable, no refund possible) returns the cleared state with an empty
    event list, because a state without pairs is finalized; the finalizer
    replaces the state exactly when every pair is in FINAL on both sides,
    and keeps the events. *)
Theorem scenario3_and_finalizer :
  (forall sha3 update_route,
     state_transition sha3 update_route None Scenario.init3
     = Ok (mkIteration None [])) /\
  (forall state evs,
     exists iteration,
       clear_if_finalized (mkIteration (Some state) evs) = Ok iteration /\
       events iteration = evs /\
       (new_state iteration = None <->
        Forall both_final (transfers_pair state)) /\
       (new_state iteration = None \/ new_state iteration = Some state)).
Proof.
  split.
  - intros sha3 update_route. reflexivity.
  - intros state evs. unfold clear_if_finalized. simpl.
    destruct (forallb pair_finalized (transfers_pair state)) eqn:E.
    + eexists. split; [ reflexivity | ]. simpl.
      split; [ reflexivity | ]. split; [ | left; reflexivity ].
      split; [ intros _ | reflexivity ].
      rewrite forallb_forall in E. apply Forall_forall. intros p Hp.
      apply pair_finalized_both_final. apply E. exact Hp.
    + eexists. split; [ reflexivity | ]. simpl.
      split; [ reflexivity | ]. split; [ | right; reflexivity ].
      split; [ discriminate | ].
      intros HF. exfalso.
      assert (forallb pair_finalized (transfers_pair state) = true) as Ht.
      { apply forallb_forall. intros p Hp.
        apply pair_finalized_both_final.
        rewrite Forall_forall in HF. apply HF. exact Hp. }
      congruence.
Qed.

(** ** Pair construction *)

(** C4, scenario 1 of the specification: the SendMediatedTransfer of
    scenario 1 carries a payee lock that expires at block 53, not 93, and
    its recipient is not B. *)
Lemma scenario1_mediated_transfer_is_not_93_to_B :
  exists iteration payee_transfer recipient,
    state_transition Scenario.sha3 Scenario.update_route None Scenario.init1
    = Ok iteration /\
    events iteration = [ SendMediatedTransfer payee_transfer recipient ] /\
    expiration payee_transfer = 53 /\
    expiration payee_transfer <> 93 /\
    recipient <> Scenario.B.
Proof.
  do 3 eexists. split; [ reflexivity | ].
  split; [ reflexivity | ].
  split; [ reflexivity | ]. split; discriminate.
Qed.

Lemma next_route_loop_chosen available ignored tb amt r available' ignored' :
  next_route_loop available ignored tb amt = (Some r, available', ignored') ->
  available_balance r >= amt /\ tb - reveal_timeout r > 0.
Proof.
  revert ignored. induction available as [| route rest IH];
    simpl; intros ignored E; [ discriminate | ].
  destruct (available_balance route >=? amt) eqn:Hb;
    destruct (tb - reveal_timeout route >? 0) eqn:Ht; simpl in E;
    try (eapply IH; exact E).
  injection E as <- _ _. split; [ apply Z.geb_ge | apply Z.gtb_gt ]; assumption.
Qed.

(** C4 (amended): under its preconditions ([timeout_blocks > 0] and
    [timeout_blocks <= payer_transfer.expiration - block_number]), when
    [next_route] chooses a payee route, [next_transfer_pair] returns the pair
    of the payer leg with that route and a payee transfer that copies
    identifier, amount, token, target, hashlock and current secret from the
    payer transfer, with expiration
    [(timeout_blocks - payee_route.reveal_timeout) + block_number], and
    emits exactly one SendMediatedTransfer carrying that payee transfer. *)
Theorem next_transfer_pair_spec :
  forall payer_route0 payer_transfer0 routes_state timeout_blocks block_number
         payee_route0 routes_state',
    timeout_blocks > 0 ->
    timeout_blocks <= expiration payer_transfer0 - block_number ->
    next_route routes_state timeout_blocks (amount payer_transfer0)
    = (Some payee_route0, routes_state') ->
    exists payee recipient,
      next_transfer_pair payer_route0 payer_transfer0 routes_state
                         timeout_blocks block_number
      = Ok (Some (new_MediationPairState payer_route0 payer_transfer0
                                         payee_route0 payee),
            [ SendMediatedTransfer payee recipient ],
            routes_state') /\
      identifier payee = identifier payer_transfer0 /\
      amount payee = amount payer_transfer0 /\
      token payee = token payer_transfer0 /\
      target payee = target payer_transfer0 /\
      hashlock payee = hashlock payer_transfer0 /\
      secret payee = secret payer_transfer0 /\
      expiration payee
      = (timeout_blocks - reveal_timeout payee_route0) + block_number.
Proof.
  intros payer_route0 payer_transfer0 routes_state timeout_blocks block_number
         payee_route0 routes_state' Hpos Hle Hroute.
  assert (reveal_timeout payee_route0 < timeout_blocks) as Hreveal.
  { unfold next_route in Hroute.
    destruct (next_route_loop (available_routes routes_state)
                (ignored_routes routes_state) timeout_blocks
                (amount payer_transfer0))
      as [[r available'] ignored'] eqn:Hloop.
    injection Hroute as -> _.
    apply next_route_loop_chosen in Hloop. lia. }
  unfold next_transfer_pair. rewrite Hroute.
  replace (timeout_blocks >? 0) with true by (symmetry; apply Z.gtb_gt; lia).
  replace (timeout_blocks <=? expiration payer_transfer0 - block_number)
    with true by (symmetry; apply Z.leb_le; lia).
  replace (reveal_timeout payee_route0 <? timeout_blocks)
    with true by (symmetry; apply Z.ltb_lt; lia).
  cbn [assert bind]. do 2 eexists.
  split; [ reflexivity | ]. simpl. repeat split; reflexivity.
Qed.

(** Scenario 1 with [settle_timeout = 50] on both routes: [timeout_blocks]
    is [min(50, 100 - 10) - 2 = 48] and the payee lock expires at block 53. *)
Lemma next_transfer_pair_spec_scenario1 :
  get_timeout_blocks Scenario.R_A Scenario.from_transfer 10 = Ok 48 /\
  exists payee recipient,
    next_transfer_pair Scenario.R_A Scenario.from_transfer
                       (mkRoutesState [Scenario.R_B] [] []) 48 10
    = Ok (Some (new_MediationPairState Scenario.R_A Scenario.from_transfer
                                       Scenario.R_B payee),
          [ SendMediatedTransfer payee recipient ],
          mkRoutesState [] [] []) /\
    expiration payee = 53.
Proof.
  split; [ reflexivity | ].
  destruct (next_transfer_pair_spec Scenario.R_A Scenario.from_transfer
              (mkRoutesState [Scenario.R_B] [] []) 48 10
              Scenario.R_B (mkRoutesState [] [] []))
    as (payee & recipient & E & _ & _ & _ & _ & _ & _ & Hexp).
  - reflexivity.
  - simpl. lia.
  - reflexivity.
  - exists payee, recipient. split; [ exact E | ].
    rewrite Hexp. reflexivity.
Defined.

(** ** On-chain withdraw intake *)

Lemma contractwithdraw_loop_break pairs channel :
  existsb (fun p => channel_address (payer_route p) =? channel) pairs = true ->
  exists pairs', contractwithdraw_loop pairs channel = Some pairs'.
Proof.
  induction pairs as [| p rest IH]; simpl; intros E; [ discriminate | ].
  destruct (channel_address (payer_route p) =? channel); [ eauto | ].
  simpl in E. destruct (IH E) as (pairs' & ->). simpl. eauto.
Qed.

Lemma contractwithdraw_loop_else pairs channel :
  existsb (fun p => channel_address (payer_route p) =? channel) pairs = false ->
  contractwithdraw_loop pairs channel = None.
Proof.
  induction pairs as [| p rest IH]; simpl; intros E; [ reflexivity | ].
  destruct (channel_address (payer_route p) =? channel); [ discriminate | ].
  simpl in E. rewrite (IH E). reflexivity.
Qed.

(** C8 (defect of the code): when the secret is known and validated and some
    pair has [payer_route.channel_address] equal to the event's
    [channel_address], [handle_contractwithdraw] leaves its loop through
    [break] without binding [iteration] and raises UnboundLocalError: no
    result is returned.  When no pair matches, the event is handed to
    [secret_learned] with [payee_contract_withdraw]. *)
Theorem handle_contractwithdraw_matching_pair_raises :
  forall sha3 state channel sender secret known,
    state_secret state = Some known ->
    sha3 known = state_hashlock state ->
    (existsb (fun p => channel_address (payer_route p) =? channel)
             (transfers_pair state) = true ->
     handle_contractwithdraw sha3 state channel sender secret
     = Raise UnboundLocalError) /\
    (existsb (fun p => channel_address (payer_route p) =? channel)
             (transfers_pair state) = false ->
     handle_contractwithdraw sha3 state channel sender secret
     = secret_learned state secret sender "payee_contract_withdraw").
Proof.
  intros sha3 state channel sender secret known Hs Hh.
  unfold handle_contractwithdraw, sha3_of. rewrite Hs. simpl.
  rewrite Hh, Z.eqb_refl. simpl. split; intros E.
  - destruct (contractwithdraw_loop_break _ _ E) as (pairs' & ->).
    reflexivity.
  - rewrite (contractwithdraw_loop_else _ _ E). reflexivity.
Qed.

(** The failing input of C8: the secret [S] is known, the only pair is paid
    by A over channel 11, and the contract reports a withdraw on channel
    11. *)
Lemma handle_contractwithdraw_matching_pair_raises_scenario :
  handle_contractwithdraw Scenario.sha3
    (Scenario.state_with 10 (Some Scenario.S) Scenario.pair1)
    11 Scenario.A Scenario.S
  = Raise UnboundLocalError /\
  state_transition Scenario.sha3 Scenario.update_route
    (Some (Scenario.state_with 10 (Some Scenario.S) Scenario.pair1))
    (ContractReceiveWithdraw 11 Scenario.A Scenario.S)
  = Raise UnboundLocalError.
Proof.
  split; [ | reflexivity ].
  apply (proj1 (handle_contractwithdraw_matching_pair_raises
                  Scenario.sha3
                  (Scenario.state_with 10 (Some Scenario.S) Scenario.pair1)
                  11 Scenario.A Scenario.S Scenario.S
                  eq_refl eq_refl)).
  reflexivity.
Defined.

(** ** Refund intake *)

Lemma is_valid_refund_iff original sender refund :
  is_valid_refund original sender refund = true <->
  sender <> target original /\
  identifier original = identifier refund /\
  amount original = amount refund /\
  hashlock original = hashlock refund /\
  target original = target refund /\
  expiration original > expiration refund.
Proof.
  unfold is_valid_refund.
  destruct (Z.eqb_spec sender (target original)) as [E | NE].
  - split; [ discriminate | intros (Hn & _); contradiction ].
  - rewrite !andb_true_iff, !Z.eqb_eq, Z.gtb_gt. tauto.
Qed.

(** C6: [handle_refundtransfer] changes the state or produces events only
    when [is_valid_refund] holds for the last pair's payee transfer, the
    sender and the refund: otherwise it returns the state unchanged with no
    events.  [is_valid_refund] is true exactly when the sender differs from
    the original target, identifier, amount, hashlock and target are equal,
    and the original expiration is strictly larger; a refund whose
    expiration equals the original's is rejected. *)
Theorem handle_refundtransfer_only_valid_refund :
  forall state sender refund last_pair,
    state_secret state = None ->
    last_item (transfers_pair state) = Ok last_pair ->
    (is_valid_refund (payee_transfer last_pair) sender refund = true <->
     sender <> target (payee_transfer last_pair) /\
     identifier (payee_transfer last_pair) = identifier refund /\
     amount (payee_transfer last_pair) = amount refund /\
     hashlock (payee_transfer last_pair) = hashlock refund /\
     target (payee_transfer last_pair) = target refund /\
     expiration (payee_transfer last_pair) > expiration refund) /\
    (forall iteration,
       handle_refundtransfer state sender refund = Ok iteration ->
       new_state iteration <> Some state \/ events iteration <> [] ->
       is_valid_refund (payee_transfer last_pair) sender refund = true) /\
    (is_valid_refund (payee_transfer last_pair) sender refund = false ->
     handle_refundtransfer state sender refund
     = Ok (mkIteration (Some state) [])) /\
    (expiration refund = expiration (payee_transfer last_pair) ->
     handle_refundtransfer state sender refund
     = Ok (mkIteration (Some state) [])).
Proof.
  intros state sender refund last_pair Hs Hl.
  assert (is_valid_refund (payee_transfer last_pair) sender refund = false ->
          handle_refundtransfer state sender refund
          = Ok (mkIteration (Some state) [])) as Hrej.
  { intros Hv. unfold handle_refundtransfer.
    rewrite Hs, Hl. simpl. rewrite Hv. reflexivity. }
  split; [ apply is_valid_refund_iff | ].
  split; [ | split ].
  - intros iteration E Hchg.
    destruct (is_valid_refund (payee_transfer last_pair) sender refund)
      eqn:Hv; [ reflexivity | ].
    rewrite (Hrej eq_refl) in E. injection E as <-. simpl in Hchg.
    destruct Hchg as [Hc | Hc]; contradiction Hc; reflexivity.
  - exact Hrej.
  - intros Hexp. apply Hrej.
    destruct (is_valid_refund (payee_transfer last_pair) sender refund)
      eqn:Hv; [ | reflexivity ].
    apply is_valid_refund_iff in Hv. lia.
Qed.

(** Scenario 5: after scenario 1 the payee lock expires at block 53; a
    refund from B with the same expiration is rejected. *)
Lemma handle_refundtransfer_only_valid_refund_scenario5 :
  handle_refundtransfer Scenario.state1 Scenario.B
    (new_LockedTransferState 1 10 5 Scenario.T 53 Scenario.H None)
  = Ok (mkIteration (Some Scenario.state1) []).
Proof.
  apply (proj2 (proj2 (proj2
           (handle_refundtransfer_only_valid_refund
              Scenario.state1 Scenario.B
              (new_LockedTransferState 1 10 5 Scenario.T 53 Scenario.H None)
              Scenario.pair1 eq_refl eq_refl)))).
  reflexivity.
Defined.

(** ** Block handler *)

(** What the body of the loop does to a pending pair whose payer lock has
    not expired, whenever it does not raise. *)
Lemma handle_block_step_valid_lock b pair pair' evs :
  pair_pending pair = true ->
  b < expiration (payer_transfer pair) ->
  handle_block_step b pair = Ok (pair', evs) ->
  payer_state pair' = "payer_expired" /\
  payee_state pair' = "payee_expired" /\
  payer_transfer pair' = payer_transfer pair /\
  str_in (payee_state pair) STATE_TRANSFER_PAYED = false.
Proof.
  intros Hp Hb E. unfold handle_block_step in E. rewrite Hp in E.
  inv_bind E. inv_bind E.
  assert ((expiration (payer_transfer pair) >? b) = true) as Hgt
    by (apply Z.gtb_gt; lia).
  destruct (str_in a STATE_TRANSFER_PAYED &&
            negb (str_in a0 STATE_TRANSFER_PAYED) &&
            negb (String.eqb (payer_state pair) "payer_waiting_withdraw"));
    [ destruct (negb (is_safe_to_wait b (payer_transfer pair)
                        (reveal_timeout (payer_route pair)))) | ];
    cbn [with_payer_state with_payee_state payer_transfer payee_state] in E;
    rewrite Hgt in E; inv_bind E;
    apply assert_Ok in Ha1; apply negb_true_iff in Ha1;
    injection E as <- <-;
    cbn [with_payer_state with_payee_state payer_transfer payee_state
         payer_state];
    auto.
Qed.

(** C1 (defect of the code): the block handler tests
    [payer_transfer.expiration > block_number], the condition under which
    the lock is still valid.  Whenever [handle_block] returns, every pending
    pair whose payer lock has not expired ([b < payer_transfer.expiration],
    so [is_lock_valid] holds) is marked [payer_expired] and [payee_expired],
    contrary to the rule that a pair is marked expired only when
    [b > expiration]. *)
Theorem handle_block_marks_valid_locks_expired :
  forall state b iteration i pair,
    handle_block state b = Ok iteration ->
    nth_error (transfers_pair state) i = Some pair ->
    pair_pending pair = true ->
    b < expiration (payer_transfer pair) ->
    exists state' pair',
      new_state iteration = Some state' /\
      nth_error (transfers_pair state') i = Some pair' /\
      payer_state pair' = "payer_expired" /\
      payee_state pair' = "payee_expired" /\
      is_lock_valid b (payer_transfer pair') = true.
Proof.
  intros state b iteration i pair E Hi Hp Hb.
  unfold handle_block in E. inv_bind E. destruct a as [pairs evs].
  injection E as <-. simpl in Ha.
  apply for_reversed_Forall2 in Ha.
  destruct (Forall2_nth_error_l _ _ _ _ _ Ha Hi) as (pair' & Hi' & e & Hstep).
  destruct (handle_block_step_valid_lock _ _ _ _ Hp Hb Hstep)
    as (H1 & H2 & H3 & _).
  eexists. exists pair'. simpl.
  split; [ reflexivity | ]. split; [ exact Hi' | ].
  split; [ exact H1 | ]. split; [ exact H2 | ].
  unfold is_lock_valid. rewrite H3. apply Z.leb_le. lia.
Qed.

(** The failing input of C1: one pending pair whose payer lock expires at
    block 100, and Block(50).  Both sides are marked expired, and the
    dispatcher then clears the state. *)
Lemma handle_block_marks_valid_locks_expired_scenario :
  (exists state' pair',
     new_state
       (mkIteration
          (Some (Scenario.state_with 50 None
                   (Scenario.pair_with "payer_pending" "payee_pending"
                                       "payer_expired" "payee_expired")))
          [])
     = Some state' /\
     nth_error (transfers_pair state') 0 = Some pair' /\
     payer_state pair' = "payer_expired" /\
     payee_state pair' = "payee_expired" /\
     is_lock_valid 50 (payer_transfer pair') = true) /\
  state_transition Scenario.sha3 Scenario.update_route
    (Some (Scenario.state_with 10 None
             (Scenario.pair_with "payer_pending" "payee_pending"
                                 "payer_pending" "payee_pending")))
    (Block 50)
  = Ok (mkIteration None []).
Proof.
  split; [ | reflexivity ].
  apply (handle_block_marks_valid_locks_expired
           (Scenario.state_with 10 None
              (Scenario.pair_with "payer_pending" "payee_pending"
                                  "payer_pending" "payee_pending"))
           50 _ 0%nat
           (Scenario.pair_with "payer_pending" "payee_pending"
                               "payer_pending" "payee_pending")).
  - reflexivity.
  - reflexivity.
  - reflexivity.
  - reflexivity.
Defined.

(** C5 (defect of the code): for a pending pair whose payee side is in PAID
    the handler cannot return while the payer lock is still valid
    ([b < payer_transfer.expiration]): reading the [state] of the transfers
    raises, or else the assertion under the inverted expiration test does.
    This covers every block at which waiting is safe and the blocks where it
    becomes unsafe, so neither the withdraw nor the quiet outcome is
    produced there. *)
Theorem handle_block_paid_payee_valid_lock_raises :
  forall state b i pair,
    nth_error (transfers_pair state) i = Some pair ->
    pair_pending pair = true ->
    In (payee_state pair) STATE_TRANSFER_PAYED ->
    b < expiration (payer_transfer pair) ->
    exists e, handle_block state b = Raise e.
Proof.
  intros state b i pair Hi Hp Hpaid Hb.
  destruct (handle_block state b) as [iteration | e] eqn:E; [ | eauto ].
  exfalso.
  unfold handle_block in E. inv_bind E. destruct a as [pairs evs].
  simpl in Ha. apply for_reversed_Forall2 in Ha.
  destruct (Forall2_nth_error_l _ _ _ _ _ Ha Hi) as (pair' & _ & e & Hstep).
  destruct (handle_block_step_valid_lock _ _ _ _ Hp Hb Hstep)
    as (_ & _ & _ & Hn).
  apply str_in_In in Hpaid. congruence.
Qed.

(** The failing input of C5 (scenario 4): the payee was paid off-chain, the
    payer lock expires at block 100 with [reveal_timeout = 5].  Block(95)
    raises instead of emitting ContractSendWithdraw, whether or not the
    transfers carry a [state]; so does Block(89). *)
Lemma handle_block_paid_payee_valid_lock_raises_scenario4 :
  (exists e,
     handle_block
       (Scenario.state_with 10 (Some Scenario.S)
          (Scenario.pair_with "payer_pending" "payee_balance_proof"
                              "payer_pending" "payee_balance_proof"))
       95 = Raise e) /\
  handle_block
    (Scenario.state_with 10 (Some Scenario.S)
       (Scenario.pair_with "payer_pending" "payee_balance_proof"
                           "payer_pending" "payee_balance_proof"))
    95 = Raise AssertionError /\
  handle_block
    (Scenario.state_with 10 (Some Scenario.S)
       (Scenario.pair_with "payer_pending" "payee_balance_proof"
                           "payer_pending" "payee_balance_proof"))
    89 = Raise AssertionError /\
  handle_block
    (Scenario.state_with 10 (Some Scenario.S)
       (with_payee_state Scenario.pair1 "payee_balance_proof"))
    95 = Raise AttributeError.
Proof.
  split; [ | split; [ reflexivity | split; reflexivity ] ].
  apply (handle_block_paid_payee_valid_lock_raises
           (Scenario.state_with 10 (Some Scenario.S)
              (Scenario.pair_with "payer_pending" "payee_balance_proof"
                                  "payer_pending" "payee_balance_proof"))
           95 0%nat
           (Scenario.pair_with "payer_pending" "payee_balance_proof"
                               "payer_pending" "payee_balance_proof")).
  - reflexivity.
  - reflexivity.
  - simpl. tauto.
  - reflexivity.
Defined.

(** ** Secret propagation *)

Lemma revealsecret_step_readable our pair :
  readable pair ->
  revealsecret_step our pair = Ok (reveal_update pair, reveal_events our pair).
Proof.
  intros (Hpayee & Hpayer).
  unfold revealsecret_step, reveal_update, reveal_events, reveal_due, get_state.
  destruct (state_attr (payee_transfer pair)) as [ps |]; [ | contradiction ].
  destruct (state_attr (payer_transfer pair)) as [qs |]; [ | contradiction ].
  cbn [bind].
  destruct (str_in ps STATE_SECRET_KNOWN && negb (str_in qs STATE_SECRET_KNOWN));
    reflexivity.
Qed.

Lemma balanceproof_step_readable b pair :
  state_attr (payee_transfer pair) <> None ->
  balanceproof_step b pair
  = Ok (balance_proof_update b pair, balance_proof_events b pair).
Proof.
  intros Hpayee.
  unfold balanceproof_step, balance_proof_update, balance_proof_events,
    balance_proof_due, get_state.
  destruct (state_attr (payee_transfer pair)) as [ps |]; [ | contradiction ].
  cbn [bind].
  destruct (str_in ps STATE_SECRET_KNOWN &&
            negb (str_in ps STATE_TRANSFER_PAYED) &&
            is_lock_valid b (payee_transfer pair));
    reflexivity.
Qed.

Lemma reveal_update_payee pair :
  payee_transfer (reveal_update pair) = payee_transfer pair /\
  payee_route (reveal_update pair) = payee_route pair.
Proof. unfold reveal_update. destruct (reveal_due pair); split; reflexivity. Qed.

Lemma balance_proof_due_reveal_update b pair :
  balance_proof_due b (reveal_update pair) = balance_proof_due b pair.
Proof.
  unfold balance_proof_due.
  rewrite (proj1 (reveal_update_payee pair)). reflexivity.
Qed.

Lemma same_legs_refl p : same_legs p p.
Proof. unfold same_legs, same_transfer. tauto. Qed.

Lemma same_legs_trans p q r : same_legs p q -> same_legs q r -> same_legs p r.
Proof.
  unfold same_legs, same_transfer.
  intros (A1 & A2 & (A3 & A4 & A5) & A6 & A7 & A8)
         (B1 & B2 & (B3 & B4 & B5) & B6 & B7 & B8).
  repeat split; congruence.
Qed.

Lemma Forall2_compose {X : Type} (R : X -> X -> Prop) l1 l2 l3 :
  (forall x y z, R x y -> R y z -> R x z) ->
  Forall2 R l1 l2 -> Forall2 R l2 l3 -> Forall2 R l1 l3.
Proof.
  intros HR H12. revert l3.
  induction H12 as [| x y l1 l2 Hxy H12 IH]; intros l3 H23;
    inversion H23; subst; constructor; eauto.
Qed.

Lemma set_payee_state_loop_same_legs backs a new :
  Forall2 same_legs backs (fst (set_payee_state_loop backs a new)).
Proof.
  induction backs as [| back rest IH]; simpl.
  - constructor.
  - destruct (node_address (payee_route back) =? a); simpl.
    + constructor.
      * unfold same_legs, same_transfer. simpl. tauto.
      * clear IH. induction rest; constructor;
          [ apply same_legs_refl | assumption ].
    + destruct (set_payee_state_loop rest a new) as [rest' wrong]. simpl in *.
      constructor; [ apply same_legs_refl | exact IH ].
Qed.

Lemma learn_secret_same_legs state s :
  Forall2 same_legs (transfers_pair state)
          (transfers_pair (learn_secret state s)).
Proof.
  unfold learn_secret.
  destruct (state_secret state); simpl.
  - induction (transfers_pair state); constructor;
      [ apply same_legs_refl | assumption ].
  - induction (transfers_pair state); simpl; constructor;
      [ unfold same_legs, same_transfer; simpl; tauto | assumption ].
Qed.

Lemma learn_pairs_same_legs state s a new :
  Forall2 same_legs (transfers_pair state) (learn_pairs state s a new).
Proof.
  unfold learn_pairs.
  eapply Forall2_compose;
    [ exact same_legs_trans | apply learn_secret_same_legs | ].
  rewrite <- (rev_involutive (transfers_pair (learn_secret state s))) at 1.
  apply Forall2_rev_both. apply set_payee_state_loop_same_legs.
Qed.

Lemma same_legs_due b p q :
  same_legs p q ->
  (readable p -> readable q) /\
  reveal_due q = reveal_due p /\
  balance_proof_due b q = balance_proof_due b p.
Proof.
  unfold same_legs, same_transfer, readable, reveal_due, balance_proof_due,
    is_lock_valid.
  intros (_ & _ & (_ & _ & E1) & _ & E2 & E3).
  rewrite E1, E2, E3. tauto.
Qed.

(** With readable sub-states [secret_learned] does not raise, and its
    outcome is the two walks over the pairs left by steps 1 and 2. *)
Lemma secret_learned_readable state s a new :
  str_in new STATE_SECRET_KNOWN = true ->
  str_in new valid_payee_states = true ->
  Forall readable (transfers_pair state) ->
  let pairs1 := learn_pairs state s a new in
  let b := block_number state in
  secret_learned state s a new
  = Ok (mkIteration
          (Some (with_transfers_pair (learn_secret state s)
                   (map (balance_proof_update b) (map reveal_update pairs1))))
          (flat_map (reveal_events (our_address state)) (rev pairs1) ++
           flat_map (balance_proof_events b) (rev (map reveal_update pairs1)))).
Proof.
  intros Hk Hv Hr pairs1 b.
  assert (Forall readable pairs1) as Hr1.
  { pose proof (learn_pairs_same_legs state s a new) as HF.
    fold pairs1 in HF. clear - HF Hr.
    induction HF as [| p q l l' Hpq HF IH]; constructor.
    - apply (proj1 (same_legs_due 0 p q Hpq)). inversion Hr; assumption.
    - apply IH. inversion Hr; assumption. }
  assert (our_address (learn_secret state s) = our_address state /\
          block_number (learn_secret state s) = block_number state)
    as (Hour & Hblk).
  { unfold learn_secret. destruct (state_secret state); split; reflexivity. }
  unfold secret_learned. rewrite Hk. cbn [bind assert].
  fold (learn_secret state s).
  unfold set_payee_state_and_check_reveal_order. rewrite Hv. cbn [bind assert].
  pose proof (eq_refl : pairs1 = learn_pairs state s a new) as Hp1.
  unfold learn_pairs in Hp1.
  destruct (set_payee_state_loop (rev (transfers_pair (learn_secret state s)))
                                 a new) as [backs wrong].
  simpl in Hp1. rewrite <- Hp1.
  assert (forall X (x : X), (if wrong then x else x) = x) as Hif
    by (intros; destruct wrong; reflexivity).
  rewrite Hif. cbn [bind assert].
  unfold events_for_revealsecret. simpl transfers_pair.
  rewrite (for_reversed_map _ reveal_update
             (reveal_events (our_address state))).
  2:{ intros p Hp. simpl our_address. rewrite Hour.
      apply revealsecret_step_readable.
      rewrite Forall_forall in Hr1. apply Hr1. exact Hp. }
  cbn [bind assert]. unfold events_for_balanceproof. simpl transfers_pair.
  rewrite (for_reversed_map _ (balance_proof_update b)
             (balance_proof_events b)).
  2:{ intros p Hp. simpl block_number. rewrite Hblk.
      apply balanceproof_step_readable.
      apply in_map_iff in Hp. destruct Hp as (p0 & <- & Hp0).
      rewrite (proj1 (reveal_update_payee p0)).
      rewrite Forall_forall in Hr1. apply (Hr1 p0 Hp0). }
  simpl. reflexivity.
Qed.

(** ** The ordering of the pairs *)

Lemma Forall_Forall2 {X Y : Type} (P : X -> Prop) (Q : Y -> Prop)
    (R : X -> Y -> Prop) l l' :
  (forall x y, P x -> R x y -> Q y) ->
  Forall P l -> Forall2 R l l' -> Forall Q l'.
Proof.
  intros HPQ HP HR. induction HR as [| x y l l' Hxy HR IH].
  - constructor.
  - inversion HP; subst. constructor; eauto.
Qed.

Lemma pairs_ok_same_expirations l l' :
  Forall2 same_expirations l l' -> pairs_ok l -> pairs_ok l'.
Proof.
  unfold pairs_ok. intros HR (Hs & Hp). split.
  - clear Hp. induction HR as [| x y l l' Hxy HR IH].
    + constructor.
    + apply StronglySorted_inv in Hs. destruct Hs as (Hs & Hx).
      constructor; [ apply IH; exact Hs | ].
      apply (Forall_Forall2 (expiration_decreasing x) _ same_expirations l);
        [ | exact Hx | exact HR ].
      unfold expiration_decreasing, same_expirations.
      intros p q Hpx (Hq & _). destruct Hxy as (Hy & _). lia.
  - apply (Forall_Forall2 payee_before_payer _ same_expirations l);
      [ | exact Hp | exact HR ].
    unfold payee_before_payer, same_expirations. intros p q Hpp (H1 & H2). lia.
Qed.

Lemma Forall2_same_expirations_refl l : Forall2 same_expirations l l.
Proof.
  induction l; constructor; [ split; reflexivity | assumption ].
Qed.

Lemma same_legs_same_expirations l l' :
  Forall2 same_legs l l' -> Forall2 same_expirations l l'.
Proof.
  induction 1 as [| p q l l' Hpq HF IH]; constructor; [ | exact IH ].
  destruct Hpq as (_ & _ & (_ & E1 & _) & (_ & E2 & _)).
  unfold same_expirations, payer_expiration. auto.
Qed.

Lemma same_expirations_trans p q r :
  same_expirations p q -> same_expirations q r -> same_expirations p r.
Proof. unfold same_expirations. intros (A & B) (C & D). split; congruence. Qed.

(** A loop whose body keeps the expirations keeps them for every pair. *)
Lemma for_reversed_same_expirations body pairs pairs' evs :
  (forall p p' e, body p = Ok (p', e) -> same_expirations p p') ->
  for_reversed body pairs = Ok (pairs', evs) ->
  Forall2 same_expirations pairs pairs'.
Proof.
  intros Hb E. apply for_reversed_Forall2 in E.
  induction E as [| p p' l l' (e & Hp) HF IH]; constructor; eauto.
Qed.

Lemma handle_block_step_same_expirations b p p' e :
  handle_block_step b p = Ok (p', e) -> same_expirations p p'.
Proof.
  unfold handle_block_step. intros E.
  destruct (pair_pending p);
    [ | injection E as <- <-; split; reflexivity ].
  inv_bind E. inv_bind E.
  destruct (str_in a STATE_TRANSFER_PAYED &&
            negb (str_in a0 STATE_TRANSFER_PAYED) &&
            negb (String.eqb (payer_state p) "payer_waiting_withdraw"));
    [ destruct (negb (is_safe_to_wait b (payer_transfer p)
                        (reveal_timeout (payer_route p)))) | ];
    cbn [with_payer_state with_payee_state payer_transfer payee_state] in E;
    (destruct (expiration (payer_transfer p) >? b);
     [ inv_bind E | ]; injection E as <- <-; split; reflexivity).
Qed.

Lemma revealsecret_step_same_expirations our p p' e :
  revealsecret_step our p = Ok (p', e) -> same_expirations p p'.
Proof.
  unfold revealsecret_step. intros E. inv_bind E. inv_bind E.
  destruct (str_in a STATE_SECRET_KNOWN && negb (str_in a0 STATE_SECRET_KNOWN));
    injection E as <- <-; split; reflexivity.
Qed.

Lemma balanceproof_step_same_expirations b p p' e :
  balanceproof_step b p = Ok (p', e) -> same_expirations p p'.
Proof.
  unfold balanceproof_step. intros E. inv_bind E.
  destruct (str_in a STATE_SECRET_KNOWN &&
            negb (str_in a STATE_TRANSFER_PAYED) &&
            is_lock_valid b (payee_transfer p));
    injection E as <- <-; split; reflexivity.
Qed.

Lemma keeps_order_invariant state state' :
  keeps_order state state' ->
  mediator_invariant state -> mediator_invariant state'.
Proof.
  intros (Hp & Hr) (Hok & Hroutes). split.
  - eapply pairs_ok_same_expirations; eauto.
  - rewrite Hr. exact Hroutes.
Qed.

Lemma handle_block_keeps_order state b iteration :
  handle_block state b = Ok iteration ->
  exists state', new_state iteration = Some state' /\ keeps_order state state'.
Proof.
  unfold handle_block. intros E. inv_bind E. destruct a as [pairs evs].
  injection E as <-. simpl in Ha.
  eexists. split; [ reflexivity | ]. split; [ | reflexivity ].
  simpl. eapply for_reversed_same_expirations; [ | exact Ha ].
  intros p p' e. apply handle_block_step_same_expirations.
Qed.

Lemma secret_learned_keeps_order state s a new iteration :
  secret_learned state s a new = Ok iteration ->
  exists state', new_state iteration = Some state' /\ keeps_order state state'.
Proof.
  unfold secret_learned. intros E. inv_bind_as E u Hu.
  fold (learn_secret state s) in E.
  inv_bind_as E r0 H0. destruct r0 as [pairs wrong_order].
  inv_bind_as E r1 H1. destruct r1 as [state1 secret_reveal].
  inv_bind_as E r2 H2. destruct r2 as [state2 balance_proof].
  injection E as <-.
  assert (pairs = learn_pairs state s a new) as Hpairs.
  { unfold set_payee_state_and_check_reveal_order in H0.
    inv_bind_as H0 v Hv. unfold learn_pairs.
    destruct (set_payee_state_loop
                (rev (transfers_pair (learn_secret state s))) a new)
      as [backs wrong].
    destruct wrong; injection H0 as <- _; reflexivity. }
  assert (routes (learn_secret state s) = routes state) as Hroutes
    by (unfold learn_secret; destruct (state_secret state); reflexivity).
  unfold events_for_revealsecret in H1. inv_bind_as H1 r3 H3.
  destruct r3 as [pairs1 evs1]. injection H1 as <- _.
  unfold events_for_balanceproof in H2. inv_bind_as H2 r4 H4.
  destruct r4 as [pairs2 evs2]. injection H2 as <- _.
  simpl in H3, H4.
  eexists. split; [ reflexivity | ]. split; [ | exact Hroutes ]. simpl.
  eapply Forall2_compose; [ exact same_expirations_trans | | ].
  - apply same_legs_same_expirations.
    apply (learn_pairs_same_legs state s a new).
  - rewrite <- Hpairs.
    eapply Forall2_compose; [ exact same_expirations_trans | | ].
    + eapply for_reversed_same_expirations; [ | exact H3 ].
      intros p p' e. apply revealsecret_step_same_expirations.
    + eapply for_reversed_same_expirations; [ | exact H4 ].
      intros p p' e. apply balanceproof_step_same_expirations.
Qed.

Lemma handle_balanceproof_keeps_order state node iteration :
  handle_balanceproof state node = Ok iteration ->
  exists state', new_state iteration = Some state' /\ keeps_order state state'.
Proof.
  unfold handle_balanceproof. intros E. injection E as <-.
  eexists. split; [ reflexivity | ]. split; [ | reflexivity ]. simpl.
  induction (transfers_pair state) as [| p l IH]; simpl; constructor;
    [ | exact IH ].
  destruct (channel_address (payer_route p) =? node); split; reflexivity.
Qed.

Lemma next_route_loop_ok available ignored tb amt r available' ignored' :
  next_route_loop available ignored tb amt = (r, available', ignored') ->
  Forall route_ok available ->
  (forall x, r = Some x -> route_ok x) /\ Forall route_ok available'.
Proof.
  revert ignored. induction available as [| route rest IH];
    simpl; intros ignored E Hok.
  - injection E as <- <- _. split; [ discriminate | constructor ].
  - inversion Hok as [| ? ? Hroute Hrest]; subst.
    destruct ((available_balance route >=? amt) &&
              (tb - reveal_timeout route >? 0)).
    + injection E as <- <- _. split; [ | exact Hrest ].
      intros x Hx. injection Hx as <-. exact Hroute.
    + eapply IH; eauto.
Qed.

Lemma get_timeout_blocks_bound r t b tb :
  get_timeout_blocks r t b = Ok tb -> tb <= expiration t - b - 2.
Proof.
  unfold get_timeout_blocks, TRANSIT_BLOCKS. intros E.
  inv_bind_as E s Hs. injection E as <-. lia.
Qed.

Lemma next_transfer_pair_ok pr pt rs tb b tp evs rs' :
  next_transfer_pair pr pt rs tb b = Ok (tp, evs, rs') ->
  Forall route_ok (available_routes rs) ->
  Forall route_ok (available_routes rs') /\
  (forall p, tp = Some p ->
             payer_transfer p = pt /\
             expiration (payee_transfer p) <= tb + b).
Proof.
  unfold next_transfer_pair, next_route. intros E Hok.
  inv_bind_as E u1 H1. inv_bind_as E u2 H2.
  destruct (next_route_loop (available_routes rs) (ignored_routes rs)
                            tb (amount pt))
    as [[r available'] ignored'] eqn:Hloop.
  destruct (next_route_loop_ok _ _ _ _ _ _ _ Hloop Hok) as (Hr & Hav).
  destruct r as [payee_route0 |].
  - inv_bind_as E u3 H3. injection E as <- _ <-.
    split; [ exact Hav | ].
    intros p Hp. injection Hp as <-. simpl. split; [ reflexivity | ].
    pose proof (Hr payee_route0 eq_refl) as Hroute.
    unfold route_ok in Hroute. lia.
  - injection E as <- _ <-. split; [ exact Hav | discriminate ].
Qed.

(** [mediate_transfer] leaves the pairs as they are or appends one pair,
    whose payer transfer is the given one and whose payee lock expires
    first. *)
Lemma mediate_transfer_appends state r t iteration :
  mediate_transfer state r t = Ok iteration ->
  Forall route_ok (available_routes (routes state)) ->
  exists state',
    new_state iteration = Some state' /\
    Forall route_ok (available_routes (routes state')) /\
    (transfers_pair state' = transfers_pair state \/
     exists p,
       transfers_pair state' = transfers_pair state ++ [p] /\
       payer_transfer p = t /\
       expiration (payee_transfer p) <= expiration t).
Proof.
  unfold mediate_transfer. intros E Hok.
  inv_bind_as E tb Htb. apply get_timeout_blocks_bound in Htb.
  inv_bind_as E res Hres. destruct res as [[tp evs] rs].
  assert (Forall route_ok (available_routes rs) /\
          (forall p, tp = Some p ->
                     payer_transfer p = t /\
                     expiration (payee_transfer p) <= tb + block_number state))
    as (Hrs & Htp).
  { destruct (tb >? 0).
    - eapply next_transfer_pair_ok; eauto.
    - injection Hres as <- _ <-. split; [ exact Hok | discriminate ]. }
  destruct tp as [p |].
  - injection E as <-. eexists. split; [ reflexivity | ]. simpl.
    split; [ exact Hrs | ]. right. exists p.
    destruct (Htp p eq_refl) as (Hpt & Hexp).
    split; [ reflexivity | ]. split; [ exact Hpt | lia ].
  - simpl in E.
    destruct (transfers_pair state) as [| [route0 transfer0 ? ? ? ?] rest]
      eqn:Hpairs;
      injection E as <-; eexists; (split; [ reflexivity | ]); simpl;
      (split; [ exact Hrs | ]); left; exact Hpairs.
Qed.

Lemma last_item_In {X : Type} (l : list X) (x : X) :
  last_item l = Ok x -> In x l.
Proof.
  induction l as [| a [| b rest] IH]; simpl; intros E.
  - discriminate.
  - injection E as <-. left. reflexivity.
  - right. apply IH. exact E.
Qed.

(** Appending a pair that expires before the last one keeps the sequence
    strictly decreasing. *)
Lemma pairs_ok_append pairs last_pair p :
  pairs_ok pairs ->
  last_item pairs = Ok last_pair ->
  payer_expiration p < payer_expiration last_pair ->
  payee_before_payer p ->
  pairs_ok (pairs ++ [p]).
Proof.
  unfold pairs_ok. intros (Hs & Hp) Hlast Hlt Hpp. split.
  - clear Hp. induction pairs as [| a rest IH]; [ discriminate | ].
    apply StronglySorted_inv in Hs. destruct Hs as (Hs & Ha).
    simpl. constructor.
    + destruct rest as [| b rest'].
      * simpl. repeat constructor.
      * apply IH; [ exact Hs | exact Hlast ].
    + apply Forall_app. split; [ exact Ha | ].
      constructor; [ | constructor ].
      unfold expiration_decreasing.
      destruct rest as [| b rest'].
      * simpl in Hlast. injection Hlast as <-. exact Hlt.
      * change (last_item (b :: rest') = Ok last_pair) in Hlast.
        apply last_item_In in Hlast.
        rewrite Forall_forall in Ha.
        pose proof (Ha last_pair Hlast) as Hd.
        unfold expiration_decreasing in Hd. lia.
  - apply Forall_app. split; [ exact Hp | repeat constructor; exact Hpp ].
Qed.

Lemma handle_refundtransfer_invariant state sender transfer iteration :
  handle_refundtransfer state sender transfer = Ok iteration ->
  mediator_invariant state ->
  state_invariant (new_state iteration).
Proof.
  unfold handle_refundtransfer. intros E (Hok & Hroutes).
  inv_bind_as E u Hu. inv_bind_as E last_pair Hlast.
  destruct (is_valid_refund (payee_transfer last_pair) sender transfer)
    eqn:Hvalid.
  - apply is_valid_refund_iff in Hvalid.
    destruct Hvalid as (_ & _ & _ & _ & _ & Hexp).
    apply mediate_transfer_appends in E; [ | exact Hroutes ].
    destruct E as (state' & -> & Hroutes' & Hpairs). simpl in Hpairs.
    split; [ | exact Hroutes' ].
    destruct Hpairs as [-> | (p & -> & Hpt & Hpe)]; [ exact Hok | ].
    assert (payee_before_payer last_pair) as Hlp.
    { destruct Hok as (_ & Hall). rewrite Forall_forall in Hall.
      apply Hall. apply last_item_In. exact Hlast. }
    unfold payee_before_payer in Hlp.
    eapply pairs_ok_append; eauto.
    + unfold payer_expiration in *. rewrite Hpt. lia.
    + unfold payee_before_payer, payer_expiration. rewrite Hpt. exact Hpe.
  - injection E as <-. simpl. split; assumption.
Qed.

Lemma clear_if_finalized_invariant iteration iteration' :
  clear_if_finalized iteration = Ok iteration' ->
  state_invariant (new_state iteration) ->
  state_invariant (new_state iteration').
Proof.
  unfold clear_if_finalized. intros E Hinv.
  destruct (new_state iteration) as [state |] eqn:Hst; [ | discriminate ].
  destruct (forallb pair_finalized (transfers_pair state));
    injection E as <-; simpl; [ exact I | rewrite Hst; exact Hinv ].
Qed.

Lemma keeps_order_state_invariant state iteration :
  (exists state', new_state iteration = Some state' /\ keeps_order state state') ->
  mediator_invariant state ->
  state_invariant (new_state iteration).
Proof.
  intros (state' & -> & Hk) Hinv. simpl.
  eapply keeps_order_invariant; eauto.
Qed.

Lemma handle_secretreveal_invariant sha3 state sender s iteration :
  handle_secretreveal sha3 state sender s = Ok iteration ->
  mediator_invariant state ->
  state_invariant (new_state iteration).
Proof.
  unfold handle_secretreveal. intros E Hinv.
  destruct (sha3 s =? state_hashlock state).
  - eapply keeps_order_state_invariant; [ | exact Hinv ].
    eapply secret_learned_keeps_order; exact E.
  - injection E as <-. exact Hinv.
Qed.

Lemma handle_contractwithdraw_invariant sha3 state channel sender s iteration :
  handle_contractwithdraw sha3 state channel sender s = Ok iteration ->
  mediator_invariant state ->
  state_invariant (new_state iteration).
Proof.
  unfold handle_contractwithdraw. intros E Hinv.
  inv_bind_as E h Hh. inv_bind_as E u Hu.
  destruct (contractwithdraw_loop (transfers_pair state) channel);
    [ discriminate | ].
  eapply keeps_order_state_invariant; [ | exact Hinv ].
  eapply secret_learned_keeps_order; exact E.
Qed.

Lemma strictly_decreasing_non_increasing pairs :
  StronglySorted expiration_decreasing pairs ->
  StronglySorted (fun p q => payer_expiration p >= payer_expiration q) pairs.
Proof.
  induction 1 as [| a l Hs IH Ha]; constructor; [ exact IH | ].
  eapply Forall_impl; [ | exact Ha ].
  unfold expiration_decreasing. intros q Hq. lia.
Qed.

Section Ordering.

(** The hash function and the route update are arbitrary; the route update
    is only required to leave the pairs alone and to keep the available
    routes well formed. *)
Variable sha3 : Z -> Z.
Variable update_route : MediatorState -> RouteState -> MediatorState.

Hypothesis update_route_pairs :
  forall state route,
    transfers_pair (update_route state route) = transfers_pair state.

Hypothesis update_route_routes :
  forall state route,
    route_ok route ->
    Forall route_ok (available_routes (routes state)) ->
    Forall route_ok (available_routes (routes (update_route state route))).

Lemma state_transition_invariant state state_change iteration :
  state_transition sha3 update_route state state_change = Ok iteration ->
  change_ok state_change ->
  state_invariant state ->
  state_invariant (new_state iteration).
Proof.
  unfold state_transition. intros E Hchange Hinv.
  inv_bind_as E it Hit.
  apply (clear_if_finalized_invariant it iteration E). clear E.
  destruct state as [state |].
  - simpl in Hinv.
    assert (forall b, handle_block state b = Ok it ->
                      state_invariant (new_state it)) as Hblock.
    { intros b Hb. eapply keeps_order_state_invariant; [ | exact Hinv ].
      eapply handle_block_keeps_order; exact Hb. }
    destruct (state_secret state);
      destruct state_change; try discriminate; eauto.
    + eapply handle_secretreveal_invariant; eauto.
    + eapply keeps_order_state_invariant; [ | exact Hinv ].
      eapply handle_balanceproof_keeps_order; exact Hit.
    + eapply handle_contractwithdraw_invariant; eauto.
    + unfold handle_routechange in Hit. injection Hit as <-. simpl.
      destruct Hinv as (Hok & Hroutes). split.
      * rewrite update_route_pairs. exact Hok.
      * apply update_route_routes; assumption.
    + eapply handle_refundtransfer_invariant; eauto.
    + eapply handle_secretreveal_invariant; eauto.
    + eapply handle_contractwithdraw_invariant; eauto.
  - destruct state_change; try discriminate.
    simpl in Hchange.
    apply mediate_transfer_appends in Hit; [ | exact Hchange ].
    destruct Hit as (state' & -> & Hroutes & Hpairs). simpl in *.
    split; [ | exact Hroutes ].
    destruct Hpairs as [-> | (p & -> & Hpt & Hpe)]; split;
      try constructor; try constructor.
    unfold payee_before_payer, payer_expiration. rewrite Hpt. exact Hpe.
Qed.

Lemma run_invariant changes :
  forall state final,
    Forall change_ok changes ->
    state_invariant state ->
    run sha3 update_route state changes = Ok final ->
    state_invariant final.
Proof.
  induction changes as [| state_change rest IH];
    simpl; intros state final Hchanges Hinv E.
  - injection E as <-. exact Hinv.
  - inversion Hchanges as [| ? ? Hchange Hrest]; subst.
    inv_bind_as E iteration Hstep.
    eapply IH; [ exact Hrest | | exact E ].
    eapply state_transition_invariant; eauto.
Qed.

(** C9: after every transition of a run that starts from the cleared state,
    [transfers_pair] is sorted by non-increasing
    [payer_transfer.expiration]; the order is strict: every pair appended
    by mediation, on initialization or on a refund, has a payer expiration
    strictly smaller than that of the pair before it.  The routes brought
    in by the state changes reserve a non-negative [reveal_timeout]. *)
Theorem transfers_pair_sorted_by_expiration :
  forall changes state,
    Forall change_ok changes ->
    run sha3 update_route None changes = Ok (Some state) ->
    StronglySorted (fun p q => payer_expiration p >= payer_expiration q)
                   (transfers_pair state) /\
    StronglySorted expiration_decreasing (transfers_pair state).
Proof.
  intros changes state Hchanges E.
  pose proof (run_invariant changes None (Some state) Hchanges I E)
    as ((Hsorted & _) & _).
  split; [ apply strictly_decreasing_non_increasing | ]; exact Hsorted.
Qed.

End Ordering.

(** The refund scenario: A-N-B, B refunds, N retries through C; the payer
    expirations of the two pairs are 100 and 52. *)
Lemma transfers_pair_sorted_by_expiration_refund :
  run Scenario.sha3 Scenario.update_route None [Refund.init; Refund.refund]
  = Ok (Some Refund.state2) /\
  map payer_expiration (transfers_pair Refund.state2) = [100; 52] /\
  StronglySorted (fun p q => payer_expiration p >= payer_expiration q)
                 (transfers_pair Refund.state2) /\
  StronglySorted expiration_decreasing (transfers_pair Refund.state2).
Proof.
  split; [ reflexivity | ]. split; [ reflexivity | ].
  apply (transfers_pair_sorted_by_expiration
           Scenario.sha3 Scenario.update_route
           (fun _ _ => eq_refl) (fun _ _ _ H => H)
           [Refund.init; Refund.refund] Refund.state2).
  - repeat constructor; unfold route_ok; simpl; lia.
  - reflexivity.
Defined.

(** * Further properties of the handlers *)

(** ** Route selection *)

Lemma next_route_loop_split available ignored tb amt r available' ignored' :
  next_route_loop available ignored tb amt = (r, available', ignored') ->
  exists rejected,
    ignored' = ignored ++ rejected /\
    available = rejected ++ chosen_route r ++ available' /\
    Forall (fun x => ~ route_usable tb amt x) rejected /\
    (r = None -> available' = []).
Proof.
  revert ignored. induction available as [| route rest IH];
    simpl; intros ignored E.
  - injection E as <- <- <-. exists []. rewrite app_nil_r.
    repeat split; constructor.
  - destruct (available_balance route >=? amt) eqn:Hb;
      destruct (tb - reveal_timeout route >? 0) eqn:Ht; simpl in E.
    + injection E as <- <- <-. exists []. rewrite app_nil_r.
      split; [ reflexivity | ]. split; [ reflexivity | ].
      split; [ constructor | discriminate ].
    + destruct (IH _ E) as (rejected & -> & Hav & Hrej & Hnone).
      exists (route :: rejected). rewrite <- app_assoc. simpl.
      split; [ reflexivity | ]. split; [ rewrite Hav; reflexivity | ].
      split; [ | exact Hnone ].
      constructor; [ | exact Hrej ].
      unfold route_usable. intros (_ & Hgt).
      apply Z.gtb_gt in Hgt. congruence.
    + destruct (IH _ E) as (rejected & -> & Hav & Hrej & Hnone).
      exists (route :: rejected). rewrite <- app_assoc. simpl.
      split; [ reflexivity | ]. split; [ rewrite Hav; reflexivity | ].
      split; [ | exact Hnone ].
      constructor; [ | exact Hrej ].
      unfold route_usable. intros (Hge & _).
      apply Z.geb_ge in Hge. congruence.
    + destruct (IH _ E) as (rejected & -> & Hav & Hrej & Hnone).
      exists (route :: rejected). rewrite <- app_assoc. simpl.
      split; [ reflexivity | ]. split; [ rewrite Hav; reflexivity | ].
      split; [ | exact Hnone ].
      constructor; [ | exact Hrej ].
      unfold route_usable. intros (Hge & _).
      apply Z.geb_ge in Hge. congruence.
Qed.

(** X1: [next_route] loses no route and picks the first usable one.  The
    available routes split into the rejected ones, which are appended to
    [ignored_routes] in order and each fail the balance or the timeout
    test, then the chosen route, which passes both, then the routes left
    available; when no route is chosen nothing is left available.  The
    refund routes are untouched. *)
Theorem next_route_first_usable :
  forall routes_state timeout_blocks transfer_amount r routes_state',
    next_route routes_state timeout_blocks transfer_amount
    = (r, routes_state') ->
    exists rejected,
      ignored_routes routes_state'
      = ignored_routes routes_state ++ rejected /\
      available_routes routes_state
      = rejected ++ chosen_route r ++ available_routes routes_state' /\
      refund_routes routes_state' = refund_routes routes_state /\
      Forall (fun x => ~ route_usable timeout_blocks transfer_amount x)
             rejected /\
      Forall (route_usable timeout_blocks transfer_amount) (chosen_route r) /\
      (r = None -> available_routes routes_state' = []).
Proof.
  intros routes_state tb amt r routes_state' E.
  unfold next_route in E.
  destruct (next_route_loop (available_routes routes_state)
              (ignored_routes routes_state) tb amt)
    as [[r0 available'] ignored'] eqn:Hloop.
  injection E as <- <-. simpl.
  destruct (next_route_loop_split _ _ _ _ _ _ _ Hloop)
    as (rejected & Hig & Hav & Hrej & Hnone).
  exists rejected. repeat split; try assumption.
  destruct r0 as [route |]; simpl; [ | constructor ].
  constructor; [ | constructor ].
  apply next_route_loop_chosen in Hloop. exact Hloop.
Qed.

(** Two unusable routes in front of B: both end up ignored, B is chosen, C
    stays available. *)
Lemma next_route_first_usable_example :
  next_route
    (mkRoutesState [Routes.poor; Routes.slow; Scenario.R_B; Scenario.R_C]
                   [] [])
    48 10
  = (Some Scenario.R_B,
     mkRoutesState [Scenario.R_C] [Routes.poor; Routes.slow] []) /\
  exists rejected,
    [Routes.poor; Routes.slow] = [] ++ rejected /\
    Forall (fun x => ~ route_usable 48 10 x) rejected.
Proof.
  split; [ reflexivity | ].
  destruct (next_route_first_usable
              (mkRoutesState
                 [Routes.poor; Routes.slow; Scenario.R_B; Scenario.R_C] [] [])
              48 10 (Some Scenario.R_B)
              (mkRoutesState [Scenario.R_C] [Routes.poor; Routes.slow] [])
              eq_refl)
    as (rejected & Hig & _ & _ & Hrej & _).
  exists rejected. split; [ exact Hig | exact Hrej ].
Defined.

(** ** Timeout computation *)

(** X2: [get_timeout_blocks] raises exactly when the payer channel is
    marked closed at a block after the current one; otherwise the timeout
    it returns, with the transit margin added back, exceeds neither the
    blocks left until the payer lock expires nor the settle timeout of the
    payer route. *)
Theorem get_timeout_blocks_bounds :
  forall payer_route0 payer_transfer0 b,
    (get_timeout_blocks payer_route0 payer_transfer0 b = Raise AssertionError
     <-> exists cb, close_block payer_route0 = Some cb /\ b < cb) /\
    (forall e, get_timeout_blocks payer_route0 payer_transfer0 b = Raise e ->
               e = AssertionError) /\
    (forall tb,
       get_timeout_blocks payer_route0 payer_transfer0 b = Ok tb ->
       tb + TRANSIT_BLOCKS <= expiration payer_transfer0 - b /\
       tb + TRANSIT_BLOCKS <= settle_timeout payer_route0).
Proof.
  intros r t b. unfold get_timeout_blocks, TRANSIT_BLOCKS.
  destruct (close_block r) as [cb |]; cbn [bind].
  - destruct (Z.geb_spec b cb) as [Hge | Hlt]; cbn [assert bind].
    + split; [ | split ].
      * split; [ discriminate | intros (cb' & E & Hlt) ].
        injection E as <-. lia.
      * discriminate.
      * intros tb E. injection E as <-. lia.
    + split; [ | split ].
      * split; [ intros _; exists cb; split; [ reflexivity | lia ]
               | reflexivity ].
      * intros e E. injection E as <-. reflexivity.
      * discriminate.
  - split; [ | split ].
    + split; [ discriminate | intros (cb & E & _); discriminate ].
    + discriminate.
    + intros tb E. injection E as <-. lia.
Qed.

(** ** Mediation *)

Lemma get_timeout_blocks_settle r t b tb :
  get_timeout_blocks r t b = Ok tb -> tb + 2 <= settle_timeout r.
Proof.
  unfold get_timeout_blocks, TRANSIT_BLOCKS. intros E.
  destruct (close_block r) as [cb |]; cbn [bind] in E.
  - destruct (Z.geb_spec b cb) as [Hge | Hlt]; cbn [assert bind] in E;
      [ injection E as <-; lia | discriminate ].
  - injection E as <-. lia.
Qed.

Lemma get_timeout_blocks_returns r t b :
  (forall cb, close_block r = Some cb -> cb <= b) ->
  exists tb, get_timeout_blocks r t b = Ok tb.
Proof.
  intros Hcb. unfold get_timeout_blocks.
  destruct (close_block r) as [cb |]; cbn [bind]; [ | eauto ].
  replace (b >=? cb) with true
    by (symmetry; apply Z.geb_le; apply Hcb; reflexivity).
  cbn [assert bind]. eauto.
Qed.

Lemma next_route_chosen rs tb amt route rs' :
  next_route rs tb amt = (Some route, rs') ->
  route_usable tb amt route /\ In route (available_routes rs).
Proof.
  unfold next_route. intros E.
  destruct (next_route_loop (available_routes rs) (ignored_routes rs) tb amt)
    as [[r available'] ignored'] eqn:Hloop.
  injection E as -> _.
  split; [ eapply next_route_loop_chosen; exact Hloop | ].
  destruct (next_route_loop_split _ _ _ _ _ _ _ Hloop) as (rej & _ & -> & _).
  apply in_or_app. right. left. reflexivity.
Qed.

(** The two ways [mediate_transfer] ends once the timeout is known: a pair
    is appended for the route that [next_route] chose, or the refund is
    attempted. *)
Lemma mediate_transfer_cases state r t tb :
  get_timeout_blocks r t (block_number state) = Ok tb ->
  (exists route rs,
     tb > 0 /\
     next_route (routes state) tb (amount t) = (Some route, rs) /\
     mediate_transfer state r t
     = Ok (mkIteration
             (Some (with_transfers_pair (with_routes state rs)
                      (transfers_pair state ++
                       [ new_MediationPairState r t route
                           (new_LockedTransferState
                              (identifier t) (amount t) (token t) (target t)
                              ((tb - reveal_timeout route) + block_number state)
                              (hashlock t) (secret t)) ])))
             [ mediatedtransfer
                 (new_LockedTransferState
                    (identifier t) (amount t) (token t) (target t)
                    ((tb - reveal_timeout route) + block_number state)
                    (hashlock t) (secret t))
                 (node_address r) ]))
  \/
  (exists rs,
     (tb > 0 /\ next_route (routes state) tb (amount t) = (None, rs) \/
      tb <= 0 /\ rs = routes state) /\
     mediate_transfer state r t
     = Ok (mkIteration
             (Some (with_routes state rs))
             (events_for_refund_transfer
                (match transfers_pair state with
                 | first :: _ => payer_route first
                 | [] => r
                 end)
                (match transfers_pair state with
                 | first :: _ => payer_transfer first
                 | [] => t
                 end)
                tb (block_number state)))).
Proof.
  intros Htb. pose proof (get_timeout_blocks_bound _ _ _ _ Htb) as Hbound.
  unfold mediate_transfer. rewrite Htb. cbn [bind].
  destruct (Z.gtb_spec tb 0) as [Hpos | Hneg].
  - unfold next_transfer_pair.
    replace (tb >? 0) with true by (symmetry; apply Z.gtb_gt; lia).
    replace (tb <=? expiration t - block_number state)
      with true by (symmetry; apply Z.leb_le; lia).
    cbn [assert bind].
    destruct (next_route (routes state) tb (amount t))
      as [[route |] rs] eqn:Hroute.
    + left. exists route, rs.
      destruct (next_route_chosen _ _ _ _ _ Hroute) as ((_ & Hrev) & _).
      replace (reveal_timeout route <? tb)
        with true by (symmetry; apply Z.ltb_lt; lia).
      cbn [assert bind].
      split; [ lia | ]. split; [ reflexivity | reflexivity ].
    + right. exists rs. split; [ left; split; [ lia | reflexivity ] | ].
      cbn [bind]. simpl transfers_pair.
      destruct (transfers_pair state) as [| [? ? ? ? ? ?] ?]; reflexivity.
  - right. exists (routes state). split; [ right; split; [ lia | reflexivity ] | ].
    simpl transfers_pair.
    destruct (transfers_pair state) as [| [? ? ? ? ? ?] ?]; reflexivity.
Qed.

(** X3: the pair that [mediate_transfer] appends keeps the safety margins.
    Its payer leg is the given route and transfer; the payee lock expires
    at least [reveal_timeout + TRANSIT_BLOCKS] blocks before the payer lock
    and before the payer channel can settle, and strictly after the current
    block; the payee route was available and has enough balance for the
    amount. *)
Theorem mediate_transfer_pair_margins :
  forall state r t iteration state' p,
    mediate_transfer state r t = Ok iteration ->
    new_state iteration = Some state' ->
    transfers_pair state' = transfers_pair state ++ [p] ->
    payer_route p = r /\
    payer_transfer p = t /\
    expiration (payee_transfer p) + reveal_timeout (payee_route p)
      + TRANSIT_BLOCKS <= expiration t /\
    expiration (payee_transfer p) + reveal_timeout (payee_route p)
      + TRANSIT_BLOCKS <= block_number state + settle_timeout r /\
    block_number state < expiration (payee_transfer p) /\
    amount t <= available_balance (payee_route p) /\
    In (payee_route p) (available_routes (routes state)).
Proof.
  intros state r t iteration state' p E Hst Hpairs.
  assert (exists tb, get_timeout_blocks r t (block_number state) = Ok tb)
    as (tb & Htb).
  { unfold mediate_transfer in E.
    destruct (get_timeout_blocks r t (block_number state)) as [tb | e];
      [ eauto | discriminate ]. }
  pose proof (get_timeout_blocks_bound _ _ _ _ Htb) as Hb1.
  pose proof (get_timeout_blocks_settle _ _ _ _ Htb) as Hb2.
  unfold TRANSIT_BLOCKS in *.
  destruct (mediate_transfer_cases state r t tb Htb)
    as [(route & rs & Hpos & Hroute & E') | (rs & _ & E')];
    rewrite E' in E; injection E as <-; simpl in Hst; injection Hst as <-;
    simpl in Hpairs.
  - apply app_inv_head in Hpairs. injection Hpairs as <-. simpl.
    destruct (next_route_chosen _ _ _ _ _ Hroute) as ((Hbal & Hrev) & Hin).
    repeat split; try assumption; lia.
  - exfalso. apply (f_equal (@List.length _)) in Hpairs.
    rewrite length_app in Hpairs. simpl in Hpairs. lia.
Qed.

(** Scenario 1: the pair A-N-B keeps the margins, [53 + 5 + 2 <= 100] and
    [53 + 5 + 2 <= 10 + 50]. *)
Lemma mediate_transfer_pair_margins_scenario1 :
  expiration (payee_transfer Scenario.pair1)
    + reveal_timeout (payee_route Scenario.pair1) + TRANSIT_BLOCKS
  <= expiration Scenario.from_transfer /\
  expiration (payee_transfer Scenario.pair1)
    + reveal_timeout (payee_route Scenario.pair1) + TRANSIT_BLOCKS
  <= 10 + settle_timeout Scenario.R_A /\
  10 < expiration (payee_transfer Scenario.pair1).
Proof.
  destruct (mediate_transfer_pair_margins
              (new_MediatorState Scenario.N
                 (mkRoutesState [Scenario.R_B] [] []) 10 Scenario.H)
              Scenario.R_A Scenario.from_transfer
              (mkIteration (Some Scenario.state1)
                 [ SendMediatedTransfer Scenario.payee_transfer1 Scenario.A ])
              Scenario.state1 Scenario.pair1
              eq_refl eq_refl eq_refl)
    as (_ & _ & H1 & H2 & H3 & _).
  split; [ exact H1 | ]. split; [ exact H2 | exact H3 ].
Defined.

Lemma next_route_refund_routes rs tb amt r rs' :
  next_route rs tb amt = (r, rs') -> refund_routes rs' = refund_routes rs.
Proof.
  unfold next_route. intros E.
  destruct (next_route_loop (available_routes rs) (ignored_routes rs) tb amt)
    as [[r0 available'] ignored'].
  injection E as _ <-. reflexivity.
Qed.

(** X4: unless the payer channel is marked closed at a later block,
    [mediate_transfer] returns: none of the assertions of
    [next_transfer_pair] can fail.  It keeps the address, block number,
    hashlock, secret and refund routes of the state, and either appends
    exactly one pair and emits exactly one SendMediatedTransfer carrying its
    payee transfer, or leaves the pairs as they are and emits at most one
    SendRefundTransfer; the refund copies identifier, token, amount and
    hashlock of the transfer of the original payer (the payer leg of the
    first pair, or the given one when there is no pair yet), is sent to
    that payer's node, and its lock expires after the current block. *)
Theorem mediate_transfer_returns :
  forall state r t,
    (forall cb, close_block r = Some cb -> cb <= block_number state) ->
    exists state' evs,
      mediate_transfer state r t = Ok (mkIteration (Some state') evs) /\
      our_address state' = our_address state /\
      block_number state' = block_number state /\
      state_hashlock state' = state_hashlock state /\
      state_secret state' = state_secret state /\
      refund_routes (routes state') = refund_routes (routes state) /\
      ((exists p recipient,
          transfers_pair state' = transfers_pair state ++ [p] /\
          evs = [ SendMediatedTransfer (payee_transfer p) recipient ])
       \/
       (transfers_pair state' = transfers_pair state /\
        (evs = [] \/
         exists e,
           block_number state < e /\
           evs = [ SendRefundTransfer
                     (identifier (match transfers_pair state with
                                  | first :: _ => payer_transfer first
                                  | [] => t
                                  end))
                     (token (match transfers_pair state with
                             | first :: _ => payer_transfer first
                             | [] => t
                             end))
                     (amount (match transfers_pair state with
                              | first :: _ => payer_transfer first
                              | [] => t
                              end))
                     (hashlock (match transfers_pair state with
                                | first :: _ => payer_transfer first
                                | [] => t
                                end))
                     e
                     (node_address (match transfers_pair state with
                                    | first :: _ => payer_route first
                                    | [] => r
                                    end)) ]))).
Proof.
  intros state r t Hcb.
  destruct (get_timeout_blocks_returns r t (block_number state) Hcb)
    as (tb & Htb).
  destruct (mediate_transfer_cases state r t tb Htb)
    as [(route & rs & Hpos & Hroute & E) | (rs & Hrs & E)];
    rewrite E; do 2 eexists; (split; [ reflexivity | ]); simpl.
  - repeat (split; [ reflexivity | ]).
    split; [ eapply next_route_refund_routes; exact Hroute | ].
    left. do 2 eexists. split; reflexivity.
  - repeat (split; [ reflexivity | ]).
    split.
    { destruct Hrs as [(_ & Hroute) | (_ & ->)];
        [ eapply next_route_refund_routes; exact Hroute | reflexivity ]. }
    right. split; [ reflexivity | ].
    unfold events_for_refund_transfer.
    destruct (Z.gtb_spec
                (tb - reveal_timeout (match transfers_pair state with
                                      | [] => r
                                      | first :: _ => payer_route first
                                      end)) 0) as [Hgt | Hle].
    + right. eexists. split; [ | reflexivity ]. lia.
    + left. reflexivity.
Qed.

(** Scenario 2: no route is available and the refund goes back to A. *)
Lemma mediate_transfer_returns_scenario2 :
  exists state' evs,
    mediate_transfer
      (new_MediatorState Scenario.N (mkRoutesState [] [] []) 10 Scenario.H)
      Scenario.R_A Scenario.from_transfer
    = Ok (mkIteration (Some state') evs) /\
    state_hashlock state' = Scenario.H.
Proof.
  destruct (mediate_transfer_returns
              (new_MediatorState Scenario.N (mkRoutesState [] [] []) 10
                                 Scenario.H)
              Scenario.R_A Scenario.from_transfer)
    as (state' & evs & E & _ & _ & Hh & _).
  - intros cb Hcb. discriminate Hcb.
  - exists state', evs. split; [ exact E | exact Hh ].
Defined.

(** ** Block handler, continued *)

Lemma Forall2_In_r {X Y : Type} (R : X -> Y -> Prop) l l' y :
  Forall2 R l l' -> In y l' -> exists x, In x l /\ R x y.
Proof.
  induction 1 as [| a b l l' Hab HF IH]; simpl; intros Hy; [ contradiction | ].
  destruct Hy as [<- | Hy].
  - exists a. split; [ left; reflexivity | exact Hab ].
  - destruct (IH Hy) as (x & Hx & Hxy). exists x. split; [ right | ]; assumption.
Qed.

(** Where the events of a loop come from, and how many there can be. *)
Lemma for_each_events body backs backs' evs :
  for_each body backs = Ok (backs', evs) ->
  (forall ev, In ev evs ->
     exists p p' e, In p backs /\ body p = Ok (p', e) /\ In ev e) /\
  ((forall p p' e, body p = Ok (p', e) -> (List.length e <= 1)%nat) ->
   (List.length evs <= List.length backs)%nat).
Proof.
  revert backs' evs. induction backs as [| back rest IH];
    simpl; intros backs' evs E.
  - injection E as <- <-. split; [ intros ev [] | intros _; simpl; lia ].
  - inv_bind_as E r1 H1. destruct r1 as [p' e].
    inv_bind_as E r2 H2. destruct r2 as [rest' e'].
    injection E as <- <-.
    destruct (IH _ _ H2) as (IHin & IHlen). split.
    + intros ev Hev. apply in_app_or in Hev. destruct Hev as [Hev | Hev].
      * exists back, p', e. split; [ left; reflexivity | ]. split; assumption.
      * destruct (IHin ev Hev) as (p & q & e0 & Hp & Hb & Hin).
        exists p, q, e0. split; [ right; exact Hp | ]. split; assumption.
    + intros Hone. rewrite length_app.
      pose proof (Hone _ _ _ H1). pose proof (IHlen Hone). simpl. lia.
Qed.

Lemma for_reversed_events body pairs pairs' evs :
  for_reversed body pairs = Ok (pairs', evs) ->
  (forall ev, In ev evs ->
     exists p p' e, In p pairs /\ body p = Ok (p', e) /\ In ev e) /\
  ((forall p p' e, body p = Ok (p', e) -> (List.length e <= 1)%nat) ->
   (List.length evs <= List.length pairs)%nat).
Proof.
  unfold for_reversed. intros E.
  inv_bind_as E r1 H1. destruct r1 as [backs evs0]. injection E as <- <-.
  destruct (for_each_events _ _ _ _ H1) as (Hin & Hlen). split.
  - intros ev Hev. destruct (Hin ev Hev) as (p & p' & e & Hp & Hb & He).
    exists p, p', e. split; [ apply in_rev; exact Hp | ]. split; assumption.
  - intros Hone. rewrite <- (length_rev pairs). apply Hlen. exact Hone.
Qed.

(** One turn of the loop of [handle_block]: the pair keeps its routes and
    transfers, and at most one withdraw is requested, for a pending pair
    for which waiting is no longer safe. *)
Lemma handle_block_step_effect b p p' e :
  handle_block_step b p = Ok (p', e) ->
  same_routes_and_transfers p p' /\
  (e = [] \/
   e = [ ContractSendWithdraw (payer_transfer p)
           (channel_address (payer_route p)) ] /\
   pair_pending p = true /\
   is_safe_to_wait b (payer_transfer p) (reveal_timeout (payer_route p))
   = false).
Proof.
  unfold handle_block_step. intros E.
  destruct (pair_pending p) eqn:Hpending;
    [ | injection E as <- <-; split;
        [ repeat split; reflexivity | left; reflexivity ] ].
  inv_bind_as E payee_st H1. inv_bind_as E payer_st H2.
  destruct (str_in payee_st STATE_TRANSFER_PAYED &&
            negb (str_in payer_st STATE_TRANSFER_PAYED) &&
            negb (String.eqb (payer_state p) "payer_waiting_withdraw"));
    [ destruct (is_safe_to_wait b (payer_transfer p)
                  (reveal_timeout (payer_route p))) eqn:Hsafe | ];
    cbn [negb with_payer_state with_payee_state payer_transfer payee_state]
      in E;
    (destruct (expiration (payer_transfer p) >? b);
     [ inv_bind_as E u Hu | ]; injection E as <- <-;
     (split; [ repeat split; reflexivity | ]); auto).
Qed.

(** X6: [handle_block] only records the block and moves sub-states.  When
    it returns, the new state has the given block number and the same
    address, hashlock, secret and routes; every pair keeps its routes and
    transfers; and every event is a ContractSendWithdraw for the payer
    transfer and payer channel of a pending pair for which
    [is_safe_to_wait] is false, at most one per pair. *)
Theorem handle_block_only_withdraws :
  forall state b iteration,
    handle_block state b = Ok iteration ->
    exists state',
      new_state iteration = Some state' /\
      block_number state' = b /\
      our_address state' = our_address state /\
      state_hashlock state' = state_hashlock state /\
      state_secret state' = state_secret state /\
      routes state' = routes state /\
      Forall2 same_routes_and_transfers
              (transfers_pair state) (transfers_pair state') /\
      (List.length (events iteration)
       <= List.length (transfers_pair state))%nat /\
      (forall ev, In ev (events iteration) ->
         exists p,
           In p (transfers_pair state) /\
           pair_pending p = true /\
           is_safe_to_wait b (payer_transfer p)
                           (reveal_timeout (payer_route p)) = false /\
           ev = ContractSendWithdraw (payer_transfer p)
                                     (channel_address (payer_route p))).
Proof.
  intros state b iteration E. unfold handle_block in E.
  inv_bind_as E r1 H1. destruct r1 as [pairs evs]. injection E as <-.
  simpl in H1. eexists. split; [ reflexivity | ]. simpl.
  repeat (split; [ reflexivity | ]).
  destruct (for_reversed_events _ _ _ _ H1) as (Hin & Hlen).
  split; [ | split ].
  - apply for_reversed_Forall2 in H1.
    eapply Forall2_impl; [ | exact H1 ].
    intros p p' (e & Hp). apply (handle_block_step_effect b p p' e Hp).
  - apply Hlen. intros p p' e Hp.
    destruct (handle_block_step_effect b p p' e Hp)
      as (_ & [-> | (-> & _)]); simpl; lia.
  - intros ev Hev. destruct (Hin ev Hev) as (p & p' & e & Hp & Hb & He).
    exists p. split; [ exact Hp | ].
    destruct (handle_block_step_effect b p p' e Hb)
      as (_ & [-> | (-> & Hpend & Hsafe)]); [ contradiction | ].
    destruct He as [<- | []]. repeat split; assumption.
Qed.

(** The payer is paid off-chain, the payer lock expires at block 100:
    Block(100) requests the withdraw on the payer channel. *)
Lemma handle_block_only_withdraws_example :
  exists state',
    new_state
      (mkIteration
         (Some (Scenario.state_with 100 (Some Scenario.S)
                  (Scenario.pair_with "payer_pending" "payee_balance_proof"
                     "payer_waiting_withdraw" "payee_balance_proof")))
         [ ContractSendWithdraw
             (set_state Scenario.from_transfer "payer_pending") 11 ])
    = Some state' /\
    block_number state' = 100.
Proof.
  destruct (handle_block_only_withdraws
              (Scenario.state_with 10 (Some Scenario.S)
                 (Scenario.pair_with "payer_pending" "payee_balance_proof"
                                     "payer_pending" "payee_balance_proof"))
              100
              (mkIteration
                 (Some (Scenario.state_with 100 (Some Scenario.S)
                          (Scenario.pair_with
                             "payer_pending" "payee_balance_proof"
                             "payer_waiting_withdraw" "payee_balance_proof")))
                 [ ContractSendWithdraw
                     (set_state Scenario.from_transfer "payer_pending") 11 ])
              eq_refl)
    as (state' & Hst & Hb & _).
  exists state'. split; [ exact Hst | exact Hb ].
Defined.

Lemma handle_block_step_again b p p' e :
  handle_block_step b p = Ok (p', e) ->
  handle_block_step b p' = Ok (p', []).
Proof.
  intros E. pose proof E as E0. unfold handle_block_step in E.
  destruct (pair_pending p) eqn:Hpending;
    [ | injection E as <- <-; exact E0 ].
  inv_bind_as E payee_st H1. inv_bind_as E payer_st H2.
  destruct (str_in payee_st STATE_TRANSFER_PAYED &&
            negb (str_in payer_st STATE_TRANSFER_PAYED) &&
            negb (String.eqb (payer_state p) "payer_waiting_withdraw"))
    eqn:Hcond;
    [ destruct (is_safe_to_wait b (payer_transfer p)
                  (reveal_timeout (payer_route p))) eqn:Hsafe | ];
    cbn [negb with_payer_state with_payee_state payer_transfer payee_state]
      in E;
    destruct (expiration (payer_transfer p) >? b) eqn:Hexp;
    try (inv_bind_as E u Hu; injection E as <- <-; reflexivity);
    try (injection E as <- <-; exact E0).
  (* the withdraw was requested and the lock has expired *)
  injection E as <- <-.
  unfold handle_block_step, pair_pending.
  cbn [with_payer_state payer_state payee_state payee_transfer payer_transfer
       payer_route].
  replace (str_in "payer_waiting_withdraw" STATE_TRANSFER_FINAL)
    with false by reflexivity.
  cbn [negb]. rewrite orb_true_r, H1, H2. cbn [bind].
  replace (String.eqb "payer_waiting_withdraw" "payer_waiting_withdraw")
    with true by reflexivity.
  cbn [negb]. rewrite andb_false_r.
  cbn [with_payer_state payer_transfer]. rewrite Hexp. reflexivity.
Qed.

Lemma flat_map_nil {X Y : Type} (l : list X) :
  flat_map (fun _ : X => @nil Y) l = [].
Proof. induction l; simpl; auto. Qed.

(** X5: a block is handled once.  If [handle_block] returns for block [b],
    handling the same block again on the state it returned changes nothing
    and emits no event: a withdraw is requested a single time. *)
Theorem handle_block_idempotent :
  forall state b iteration state1,
    handle_block state b = Ok iteration ->
    new_state iteration = Some state1 ->
    handle_block state1 b = Ok (mkIteration (Some state1) []).
Proof.
  intros state b iteration state1 E Hst. unfold handle_block in E.
  inv_bind_as E r1 H1. destruct r1 as [pairs evs]. injection E as <-.
  simpl in Hst, H1. injection Hst as <-.
  apply for_reversed_Forall2 in H1.
  unfold handle_block. simpl transfers_pair.
  rewrite (for_reversed_map _ (fun p => p) (fun _ => [])).
  - rewrite map_id, flat_map_nil. cbn [bind].
    destruct state; reflexivity.
  - intros p' Hp'.
    destruct (Forall2_In_r _ _ _ _ H1 Hp') as (p & _ & e & Hstep).
    eapply handle_block_step_again; exact Hstep.
Qed.

Lemma handle_block_idempotent_example :
  handle_block
    (Scenario.state_with 100 (Some Scenario.S)
       (Scenario.pair_with "payer_pending" "payee_balance_proof"
                           "payer_waiting_withdraw" "payee_balance_proof"))
    100
  = Ok (mkIteration
          (Some (Scenario.state_with 100 (Some Scenario.S)
                   (Scenario.pair_with "payer_pending" "payee_balance_proof"
                      "payer_waiting_withdraw" "payee_balance_proof")))
          []).
Proof.
  apply (handle_block_idempotent
           (Scenario.state_with 10 (Some Scenario.S)
              (Scenario.pair_with "payer_pending" "payee_balance_proof"
                                  "payer_pending" "payee_balance_proof"))
           100
           (mkIteration
              (Some (Scenario.state_with 100 (Some Scenario.S)
                       (Scenario.pair_with
                          "payer_pending" "payee_balance_proof"
                          "payer_waiting_withdraw" "payee_balance_proof")))
              [ ContractSendWithdraw
                  (set_state Scenario.from_transfer "payer_pending") 11 ])).
  - reflexivity.
  - reflexivity.
Defined.

(** ** Finalization, continued *)

Lemma pair_pending_not_finalized p :
  pair_pending p = negb (pair_finalized p).
Proof.
  unfold pair_pending, pair_finalized. rewrite negb_andb. reflexivity.
Qed.

Lemma no_pending_all_finalized pairs :
  get_pending_transfer_pairs pairs = [] <->
  forallb pair_finalized pairs = true.
Proof.
  unfold get_pending_transfer_pairs.
  induction pairs as [| p rest IH]; simpl; [ tauto | ].
  rewrite pair_pending_not_finalized.
  destruct (pair_finalized p); simpl; [ exact IH | ].
  split; discriminate.
Qed.

(** X7: the finalizer and [get_pending_transfer_pairs] agree: the state is
    cleared exactly when no pair is pending.  Hence a state that
    [state_transition] hands back is never idle: it holds at least one
    pending pair. *)
Theorem live_state_has_pending_pair :
  (forall state evs,
     exists iteration,
       clear_if_finalized (mkIteration (Some state) evs) = Ok iteration /\
       (new_state iteration = None <->
        get_pending_transfer_pairs (transfers_pair state) = [])) /\
  (forall sha3 update_route state state_change iteration state',
     state_transition sha3 update_route state state_change = Ok iteration ->
     new_state iteration = Some state' ->
     get_pending_transfer_pairs (transfers_pair state') <> [] /\
     transfers_pair state' <> []).
Proof.
  assert (forall state evs iteration,
            clear_if_finalized (mkIteration (Some state) evs) = Ok iteration ->
            (new_state iteration = None <->
             get_pending_transfer_pairs (transfers_pair state) = []) /\
            (forall state', new_state iteration = Some state' ->
                            state' = state)) as Hclear.
  { intros state evs iteration E. unfold clear_if_finalized in E. simpl in E.
    rewrite no_pending_all_finalized.
    destruct (forallb pair_finalized (transfers_pair state));
      injection E as <-; simpl; split;
      try (split; [ reflexivity || discriminate | reflexivity || discriminate ]);
      try discriminate.
    intros state' Hs. injection Hs as <-. reflexivity. }
  split.
  - intros state evs.
    destruct (clear_if_finalized (mkIteration (Some state) evs))
      as [iteration | e] eqn:E.
    + exists iteration. split; [ reflexivity | ].
      apply (Hclear state evs iteration E).
    + unfold clear_if_finalized in E. simpl in E.
      destruct (forallb pair_finalized (transfers_pair state)); discriminate.
  - intros sha3 update_route state state_change iteration state' E Hst.
    unfold state_transition in E. inv_bind_as E it Hit.
    destruct it as [[st |] evs];
      [ | unfold clear_if_finalized in E; simpl in E; discriminate ].
    destruct (Hclear st evs iteration E) as (Hnone & Hsame).
    pose proof (Hsame state' Hst) as ->.
    assert (get_pending_transfer_pairs (transfers_pair st) <> []) as Hp.
    { intros Hempty. apply Hnone in Hempty. congruence. }
    split; [ exact Hp | ].
    intros Hnil. apply Hp. rewrite Hnil. reflexivity.
Qed.

(** Scenario 1 hands back a state: its only pair is pending. *)
Lemma live_state_has_pending_pair_scenario1 :
  get_pending_transfer_pairs (transfers_pair Scenario.state1) <> [] /\
  transfers_pair Scenario.state1 <> [].
Proof.
  apply (proj2 live_state_has_pending_pair
           Scenario.sha3 Scenario.update_route None Scenario.init1
           (mkIteration (Some Scenario.state1)
              [ SendMediatedTransfer Scenario.payee_transfer1 Scenario.A ])
           Scenario.state1).
  - reflexivity.
  - reflexivity.
Defined.

(** ** Recording the payee state *)

Lemma set_payee_state_loop_no_match backs a new :
  Forall (fun q => node_address (payee_route q) <> a) backs ->
  fst (set_payee_state_loop backs a new) = backs.
Proof.
  induction 1 as [| back rest Hback Hrest IH]; simpl; [ reflexivity | ].
  destruct (Z.eqb_spec (node_address (payee_route back)) a);
    [ contradiction | ].
  destruct (set_payee_state_loop rest a new) as [rest' wrong].
  simpl in *. rewrite IH. reflexivity.
Qed.

Lemma set_payee_state_loop_first_match later p earlier a new :
  Forall (fun q => node_address (payee_route q) <> a) later ->
  node_address (payee_route p) = a ->
  fst (set_payee_state_loop (later ++ p :: earlier) a new)
  = later ++ with_payee_state p new :: earlier.
Proof.
  intros Hlater Hp.
  induction Hlater as [| back rest Hback Hrest IH]; simpl.
  - rewrite Hp, Z.eqb_refl. reflexivity.
  - destruct (Z.eqb_spec (node_address (payee_route back)) a);
      [ contradiction | ].
    destruct (set_payee_state_loop (rest ++ p :: earlier) a new)
      as [rest' wrong].
    simpl in *. rewrite IH. reflexivity.
Qed.

(** X8: [set_payee_state_and_check_reveal_order] changes one pair at most,
    the most recent one whose payee route leads to the given address: pairs
    appended earlier, even towards the same address, and all later pairs
    keep their state.  With no such pair nothing changes.  No event is ever
    produced, and a state outside the payee alphabet trips the assertion. *)
Theorem set_payee_state_changes_latest_match :
  forall payee_address new_payee_state,
    (str_in new_payee_state valid_payee_states = false ->
     forall pairs,
       set_payee_state_and_check_reveal_order pairs payee_address
                                              new_payee_state
       = Raise AssertionError) /\
    (str_in new_payee_state valid_payee_states = true ->
     (forall earlier p later,
        node_address (payee_route p) = payee_address ->
        Forall (fun q => node_address (payee_route q) <> payee_address)
               later ->
        set_payee_state_and_check_reveal_order
          (earlier ++ p :: later) payee_address new_payee_state
        = Ok (earlier ++ with_payee_state p new_payee_state :: later, [])) /\
     (forall pairs,
        Forall (fun q => node_address (payee_route q) <> payee_address)
               pairs ->
        set_payee_state_and_check_reveal_order pairs payee_address
                                               new_payee_state
        = Ok (pairs, []))).
Proof.
  intros a new. split.
  - intros Hbad pairs. unfold set_payee_state_and_check_reveal_order.
    rewrite Hbad. reflexivity.
  - intros Hok. split.
    + intros earlier p later Hp Hlater.
      unfold set_payee_state_and_check_reveal_order. rewrite Hok.
      cbn [assert bind].
      pose proof (set_payee_state_loop_first_match
                    (rev later) p (rev earlier) a new
                    (Forall_rev Hlater) Hp) as Hloop.
      replace (rev (earlier ++ p :: later))
        with (rev later ++ p :: rev earlier)
        by (rewrite rev_app_distr; simpl; rewrite <- app_assoc; reflexivity).
      destruct (set_payee_state_loop (rev later ++ p :: rev earlier) a new)
        as [backs wrong].
      simpl in Hloop. subst backs.
      rewrite rev_app_distr. simpl. rewrite <- app_assoc. simpl.
      rewrite !rev_involutive. destruct wrong; reflexivity.
    + intros pairs Hnone.
      unfold set_payee_state_and_check_reveal_order. rewrite Hok.
      cbn [assert bind].
      pose proof (set_payee_state_loop_no_match (rev pairs) a new
                    (Forall_rev Hnone)) as Hloop.
      destruct (set_payee_state_loop (rev pairs) a new) as [backs wrong].
      simpl in Hloop. subst backs. rewrite rev_involutive.
      destruct wrong; reflexivity.
Qed.

(** Two pairs towards B and C after a refund: the reveal from C sets the
    payee state of the second pair only. *)
Lemma set_payee_state_changes_latest_match_example :
  set_payee_state_and_check_reveal_order
    ([Scenario.pair1] ++ Refund.pair2 :: []) Scenario.C "payee_secret_revealed"
  = Ok ([Scenario.pair1]
          ++ with_payee_state Refund.pair2 "payee_secret_revealed" :: [],
        []).
Proof.
  apply (proj1 (proj2 (set_payee_state_changes_latest_match
                         Scenario.C "payee_secret_revealed") eq_refl)).
  - reflexivity.
  - constructor.
Defined.

(** ** Refund intake, continued *)

(** A refund is refused outright in two situations:
    [handle_refundtransfer] fails its assertion when the secret is already
    known, whatever the refund is, and raises IndexError when the state
    holds no pair to refund. *)
Theorem handle_refundtransfer_refusals :
  forall state sender transfer,
    (state_secret state <> None ->
     handle_refundtransfer state sender transfer = Raise AssertionError) /\
    (state_secret state = None ->
     transfers_pair state = [] ->
     handle_refundtransfer state sender transfer = Raise IndexError).
Proof.
  intros state sender transfer. unfold handle_refundtransfer. split.
  - intros Hs. destruct (state_secret state); [ reflexivity | contradiction ].
  - intros Hs Hp. rewrite Hs, Hp. reflexivity.
Qed.

Lemma handle_refundtransfer_refusals_example :
  handle_refundtransfer
    (Scenario.state_with 10 (Some Scenario.S) Scenario.pair1) Scenario.B
    (new_LockedTransferState 1 10 5 Scenario.T 52 Scenario.H None)
  = Raise AssertionError.
Proof.
  apply (proj1 (handle_refundtransfer_refusals
                  (Scenario.state_with 10 (Some Scenario.S) Scenario.pair1)
                  Scenario.B
                  (new_LockedTransferState 1 10 5 Scenario.T 52
                                           Scenario.H None))).
  discriminate.
Defined.

(** X9: a valid refund re-enters mediation through the hop that refunded.
    When [handle_refundtransfer] accepts a refund and returns, the payee
    route of the last pair has been recorded as the last refund route, and
    the pairs are either unchanged or extended by one pair whose payer leg
    is that route with the refund transfer and whose payee transfer carries
    the identifier, amount, target and hashlock of the transfer that was
    refunded, with a strictly earlier expiration (the available routes
    reserve a non-negative [reveal_timeout]). *)
Theorem handle_refundtransfer_chains_pairs :
  forall state sender transfer last_pair iteration state',
    state_secret state = None ->
    last_item (transfers_pair state) = Ok last_pair ->
    is_valid_refund (payee_transfer last_pair) sender transfer = true ->
    Forall route_ok (available_routes (routes state)) ->
    handle_refundtransfer state sender transfer = Ok iteration ->
    new_state iteration = Some state' ->
    refund_routes (routes state')
    = refund_routes (routes state) ++ [payee_route last_pair] /\
    (transfers_pair state' = transfers_pair state \/
     exists p,
       transfers_pair state' = transfers_pair state ++ [p] /\
       payer_route p = payee_route last_pair /\
       payer_transfer p = transfer /\
       identifier (payee_transfer p)
       = identifier (payee_transfer last_pair) /\
       amount (payee_transfer p) = amount (payee_transfer last_pair) /\
       target (payee_transfer p) = target (payee_transfer last_pair) /\
       hashlock (payee_transfer p) = hashlock (payee_transfer last_pair) /\
       expiration (payee_transfer p)
       < expiration (payee_transfer last_pair)).
Proof.
  intros state sender transfer last_pair iteration state' Hs Hl Hv Hok E Hst.
  unfold handle_refundtransfer in E. rewrite Hs, Hl in E.
  cbn [assert bind] in E. rewrite Hv in E.
  apply is_valid_refund_iff in Hv.
  destruct Hv as (_ & Hid & Ham & Hh & Htg & Hexp).
  set (state2 := with_routes state
                   (mkRoutesState (available_routes (routes state))
                      (ignored_routes (routes state))
                      (refund_routes (routes state)
                       ++ [payee_route last_pair]))) in E.
  assert (exists tb,
            get_timeout_blocks (payee_route last_pair) transfer
                               (block_number state2) = Ok tb) as (tb & Htb).
  { unfold mediate_transfer in E.
    destruct (get_timeout_blocks (payee_route last_pair) transfer
                                 (block_number state2)) as [tb | e];
      [ eauto | discriminate ]. }
  pose proof (get_timeout_blocks_bound _ _ _ _ Htb) as Hbound.
  destruct (mediate_transfer_cases state2 _ _ tb Htb)
    as [(route & rs & Hpos & Hroute & E') | (rs & Hrs & E')];
    rewrite E' in E; injection E as <-; simpl in Hst; injection Hst as <-;
    simpl.
  - split; [ apply (next_route_refund_routes _ _ _ _ _ Hroute) | ].
    right. eexists. split; [ reflexivity | ]. simpl.
    destruct (next_route_chosen _ _ _ _ _ Hroute) as ((_ & Hrev) & Hin).
    simpl in Hbound. repeat split; try congruence.
    simpl in Hin. rewrite Forall_forall in Hok.
    pose proof (Hok route Hin) as H0. unfold route_ok in H0. lia.
  - split; [ | left; reflexivity ].
    destruct Hrs as [(_ & Hroute) | (_ & ->)];
      [ apply (next_route_refund_routes _ _ _ _ _ Hroute) | reflexivity ].
Qed.

(** The refund scenario: B refunds with expiration 52, the retry goes
    through C with expiration 45. *)
Lemma handle_refundtransfer_chains_pairs_example :
  refund_routes (routes Refund.state2) = [] ++ [Scenario.R_B] /\
  (transfers_pair Refund.state2 = transfers_pair
     (mkMediatorState Scenario.N (mkRoutesState [Scenario.R_C] [] []) 10
                      Scenario.H None [Scenario.pair1]) \/
   exists p,
     transfers_pair Refund.state2 = [Scenario.pair1] ++ [p] /\
     expiration (payee_transfer p) < 53).
Proof.
  destruct (handle_refundtransfer_chains_pairs
              (mkMediatorState Scenario.N (mkRoutesState [Scenario.R_C] [] [])
                               10 Scenario.H None [Scenario.pair1])
              Scenario.B
              (new_LockedTransferState 1 10 5 Scenario.T 52 Scenario.H None)
              Scenario.pair1
              (mkIteration (Some Refund.state2)
                 [ SendMediatedTransfer
                     (new_LockedTransferState 1 10 5 Scenario.T 45
                                              Scenario.H None)
                     Scenario.B ])
              Refund.state2
              eq_refl eq_refl eq_refl)
    as (Hr & Hp).
  - repeat constructor. unfold route_ok. simpl. lia.
  - reflexivity.
  - reflexivity.
  - split; [ exact Hr | ].
    destruct Hp as [Hp | (p & Hp & _ & _ & _ & _ & _ & _ & Hlt)];
      [ left; exact Hp | right; exists p; split; assumption ].
Defined.

(** ** What the secret handlers keep *)

Lemma for_reversed_Forall (P : MediationPairState -> Prop) body pairs pairs' evs :
  (forall p p' e, body p = Ok (p', e) -> P p -> P p') ->
  Forall P pairs ->
  for_reversed body pairs = Ok (pairs', evs) ->
  Forall P pairs'.
Proof.
  intros Hb HP E. apply for_reversed_Forall2 in E.
  eapply Forall_Forall2; [ | exact HP | exact E ].
  intros p p' Hp (e & Hstep). eapply Hb; eauto.
Qed.

Lemma set_payee_state_loop_Forall (P : MediationPairState -> Prop) backs a new :
  (forall p, P p -> P (with_payee_state p new)) ->
  Forall P backs ->
  Forall P (fst (set_payee_state_loop backs a new)).
Proof.
  intros Hset. induction 1 as [| back rest Hback Hrest IH]; simpl.
  - constructor.
  - destruct (node_address (payee_route back) =? a); simpl.
    + constructor; [ apply Hset; exact Hback | exact Hrest ].
    + destruct (set_payee_state_loop rest a new) as [rest' wrong].
      simpl in *. constructor; assumption.
Qed.

Lemma revealsecret_step_carries_secret s our p p' e :
  revealsecret_step our p = Ok (p', e) ->
  carries_secret s p -> carries_secret s p'.
Proof.
  unfold revealsecret_step. intros E Hp.
  inv_bind_as E payee_st H1. inv_bind_as E payer_st H2.
  destruct (str_in payee_st STATE_SECRET_KNOWN &&
            negb (str_in payer_st STATE_SECRET_KNOWN));
    injection E as <- _; exact Hp.
Qed.

Lemma balanceproof_step_carries_secret s b p p' e :
  balanceproof_step b p = Ok (p', e) ->
  carries_secret s p -> carries_secret s p'.
Proof.
  unfold balanceproof_step. intros E Hp.
  inv_bind_as E payee_st H1.
  destruct (str_in payee_st STATE_SECRET_KNOWN &&
            negb (str_in payee_st STATE_TRANSFER_PAYED) &&
            is_lock_valid b (payee_transfer p));
    injection E as <- _; exact Hp.
Qed.

Lemma learn_secret_frame state s :
  same_frame state (learn_secret state s) /\
  block_number (learn_secret state s) = block_number state /\
  state_secret (learn_secret state s)
  = Some (match state_secret state with Some k => k | None => s end) /\
  (state_secret state = None ->
   Forall (carries_secret s) (transfers_pair (learn_secret state s))).
Proof.
  unfold learn_secret, same_frame.
  destruct (state_secret state) as [k |] eqn:Hs; simpl.
  - rewrite Hs. repeat split; try reflexivity. discriminate.
  - rewrite length_map. repeat split; try reflexivity.
    intros _. apply Forall_forall. intros p Hp.
    apply in_map_iff in Hp. destruct Hp as (q & <- & _).
    split; reflexivity.
Qed.

(** The outcome of [secret_learned], whenever it returns. *)
Lemma secret_learned_outcome state s a new iteration :
  secret_learned state s a new = Ok iteration ->
  exists state',
    new_state iteration = Some state' /\
    same_frame state state' /\
    block_number state' = block_number state /\
    state_secret state'
    = Some (match state_secret state with Some k => k | None => s end) /\
    (state_secret state = None ->
     Forall (carries_secret s) (transfers_pair state')).
Proof.
  intros E.
  destruct (secret_learned_keeps_order _ _ _ _ _ E)
    as (state0 & Hst0 & Hkeep & _).
  apply Forall2_length in Hkeep.
  destruct (learn_secret_frame state s)
    as ((Hour & Hhash & Hroutes & _) & Hblock & Hsecret & Hcarry).
  unfold secret_learned in E. inv_bind_as E u Hu.
  fold (learn_secret state s) in E.
  inv_bind_as E r0 H0. destruct r0 as [pairs wrong_order].
  inv_bind_as E r1 H1. destruct r1 as [state1 secret_reveal].
  inv_bind_as E r2 H2. destruct r2 as [state2 balance_proof].
  injection E as <-.
  unfold events_for_revealsecret in H1. inv_bind_as H1 r3 H3.
  destruct r3 as [pairs1 evs1]. injection H1 as <- _.
  unfold events_for_balanceproof in H2. inv_bind_as H2 r4 H4.
  destruct r4 as [pairs2 evs2]. injection H2 as <- _.
  simpl in H3, H4, Hst0. injection Hst0 as <-. simpl in Hkeep.
  eexists. split; [ reflexivity | ]. unfold same_frame. simpl.
  split; [ repeat split; auto | ].
  split; [ exact Hblock | ]. split; [ exact Hsecret | ].
  intros Hnone.
  eapply for_reversed_Forall;
    [ intros p p' e; apply balanceproof_step_carries_secret | | exact H4 ].
  eapply for_reversed_Forall;
    [ intros p p' e; apply revealsecret_step_carries_secret | | exact H3 ].
  unfold set_payee_state_and_check_reveal_order in H0.
  inv_bind_as H0 v Hv.
  pose proof (set_payee_state_loop_Forall (carries_secret s)
                (rev (transfers_pair (learn_secret state s))) a new
                (fun p Hp => Hp)
                (Forall_rev (Hcarry Hnone))) as Hloop.
  destruct (set_payee_state_loop
              (rev (transfers_pair (learn_secret state s))) a new)
    as [backs wrong].
  simpl in Hloop.
  destruct wrong; injection H0 as <- _; apply Forall_rev; exact Hloop.
Qed.

(** X10: learning the secret.  When a state without secret handles a
    ReceiveSecretReveal whose secret hashes to the hashlock and returns,
    the new state records that secret, which still hashes to its hashlock,
    and both transfers of every pair carry it; address, hashlock, routes,
    block number and the number of pairs are unchanged. *)
Theorem handle_secretreveal_records_secret :
  forall sha3 state sender s iteration,
    state_secret state = None ->
    sha3 s = state_hashlock state ->
    handle_secretreveal sha3 state sender s = Ok iteration ->
    exists state',
      new_state iteration = Some state' /\
      state_secret state' = Some s /\
      sha3 s = state_hashlock state' /\
      Forall (carries_secret s) (transfers_pair state') /\
      same_frame state state' /\
      block_number state' = block_number state.
Proof.
  intros sha3 state sender s iteration Hnone Hhash E.
  unfold handle_secretreveal in E. rewrite Hhash, Z.eqb_refl in E.
  destruct (secret_learned_outcome _ _ _ _ _ E)
    as (state' & Hst & Hframe & Hblock & Hsecret & Hcarry).
  exists state'. rewrite Hnone in Hsecret.
  split; [ exact Hst | ]. split; [ exact Hsecret | ].
  split; [ destruct Hframe as (_ & -> & _); exact Hhash | ].
  split; [ apply Hcarry; exact Hnone | ]. split; assumption.
Qed.

Lemma handle_secretreveal_records_secret_example :
  exists state',
    state_secret state' = Some Scenario.S /\
    Forall (carries_secret Scenario.S) (transfers_pair state').
Proof.
  destruct (handle_secretreveal_records_secret Scenario.sha3
              (Scenario.state_with 10 None
                 (Scenario.pair_with "payer_pending" "payee_secret_revealed"
                                     "payer_pending" "payee_pending"))
              Scenario.B Scenario.S
              (mkIteration
                 (Some (Scenario.state_with 10 (Some Scenario.S)
                          (mkPair Scenario.R_A
                             (set_state
                                (set_transfer_secret Scenario.from_transfer
                                                     Scenario.S)
                                "payer_secret_revealed")
                             Scenario.R_B
                             (set_state
                                (set_transfer_secret Scenario.payee_transfer1
                                                     Scenario.S)
                                "payee_balance_proof")
                             "payer_pending" "payee_secret_revealed")))
                 [ SendRevealSecret 1 (Some Scenario.S) Scenario.A Scenario.N;
                   SendBalanceProof 1 Scenario.B ])
              eq_refl eq_refl eq_refl)
    as (state' & _ & Hs & _ & Hc & _).
  exists state'. split; assumption.
Defined.

Lemma handle_block_frame state b iteration :
  handle_block state b = Ok iteration ->
  exists state',
    new_state iteration = Some state' /\
    same_frame state state' /\
    state_secret state' = state_secret state.
Proof.
  intros E.
  destruct (handle_block_keeps_order _ _ _ E) as (state0 & Hst0 & Hkeep & _).
  apply Forall2_length in Hkeep.
  unfold handle_block in E. inv_bind_as E r1 H1. destruct r1 as [pairs evs].
  injection E as <-. simpl in Hst0. injection Hst0 as <-. simpl in Hkeep.
  eexists. split; [ reflexivity | ]. unfold same_frame. simpl.
  repeat split; auto.
Qed.

(** X11: once the secret is known it stays.  Whatever state change a state
    with a secret handles, a state that [state_transition] hands back has
    the same secret, hashlock, address and routes and as many pairs: in
    this phase nothing forgets the secret, re-routes or drops a pair. *)
Theorem secret_is_never_forgotten :
  forall sha3 update_route state known state_change iteration state',
    state_secret state = Some known ->
    state_transition sha3 update_route (Some state) state_change
    = Ok iteration ->
    new_state iteration = Some state' ->
    state_secret state' = Some known /\ same_frame state state'.
Proof.
  intros sha3 update_route state known state_change iteration state'
         Hknown E Hst.
  unfold state_transition in E. rewrite Hknown in E.
  inv_bind_as E it Hit.
  assert (exists state1,
            new_state it = Some state1 /\
            state_secret state1 = Some known /\ same_frame state state1)
    as (state1 & Hst1 & Hs1 & Hf1).
  { assert (forall sender s,
              handle_secretreveal sha3 state sender s = Ok it ->
              exists state1,
                new_state it = Some state1 /\
                state_secret state1 = Some known /\ same_frame state state1)
      as Hreveal.
    { intros sender s Hr. unfold handle_secretreveal in Hr.
      destruct (sha3 s =? state_hashlock state).
      - destruct (secret_learned_outcome _ _ _ _ _ Hr)
          as (state1 & H1 & H2 & _ & H3 & _).
        rewrite Hknown in H3. exists state1. repeat split; auto; apply H2.
      - injection Hr as <-. exists state. unfold same_frame.
        repeat split; auto. }
    destruct state_change; try discriminate.
    - destruct (handle_block_frame _ _ _ Hit) as (state1 & H1 & H2 & H3).
      exists state1. rewrite H3, Hknown. repeat split; auto; apply H2.
    - eapply Hreveal; exact Hit.
    - unfold handle_balanceproof in Hit. injection Hit as <-.
      eexists. split; [ reflexivity | ]. unfold same_frame. simpl.
      rewrite length_map. repeat split; auto.
    - unfold handle_contractwithdraw in Hit.
      inv_bind_as Hit h Hh. inv_bind_as Hit u Hu.
      destruct (contractwithdraw_loop (transfers_pair state) channel_address0);
        [ discriminate | ].
      destruct (secret_learned_outcome _ _ _ _ _ Hit)
        as (state1 & H1 & H2 & _ & H3 & _).
      rewrite Hknown in H3. exists state1. repeat split; auto; apply H2. }
  unfold clear_if_finalized in E. rewrite Hst1 in E.
  destruct (forallb pair_finalized (transfers_pair state1));
    injection E as <-; simpl in Hst; [ discriminate | ].
  rewrite Hst1 in Hst. injection Hst as <-. split; assumption.
Qed.

(** The payer lock has expired and the payer is silent: Block(100) requests
    the withdraw and the secret stays. *)
Lemma secret_is_never_forgotten_example :
  state_secret
    (Scenario.state_with 100 (Some Scenario.S)
       (Scenario.pair_with "payer_pending" "payee_balance_proof"
                           "payer_waiting_withdraw" "payee_balance_proof"))
  = Some Scenario.S.
Proof.
  apply (secret_is_never_forgotten Scenario.sha3 Scenario.update_route
           (Scenario.state_with 10 (Some Scenario.S)
              (Scenario.pair_with "payer_pending" "payee_balance_proof"
                                  "payer_pending" "payee_balance_proof"))
           Scenario.S (Block 100)
           (mkIteration
              (Some (Scenario.state_with 100 (Some Scenario.S)
                       (Scenario.pair_with
                          "payer_pending" "payee_balance_proof"
                          "payer_waiting_withdraw" "payee_balance_proof")))
              [ ContractSendWithdraw
                  (set_state Scenario.from_transfer "payer_pending") 11 ])).
  - reflexivity.
  - reflexivity.
  - reflexivity.
Defined.

(** ** Replaying a secret reveal *)

Lemma set_payee_state_loop_map (g : MediationPairState -> MediationPairState)
    backs a new :
  (forall p, payee_route (g p) = payee_route p) ->
  (forall p, g (with_payee_state p new) = with_payee_state (g p) new) ->
  fst (set_payee_state_loop (map g backs) a new)
  = map g (fst (set_payee_state_loop backs a new)).
Proof.
  intros Hroute Hcomm. induction backs as [| back rest IH]; simpl.
  - reflexivity.
  - rewrite Hroute.
    destruct (node_address (payee_route back) =? a); simpl.
    + rewrite Hcomm. reflexivity.
    + destruct (set_payee_state_loop (map g rest) a new) as [l1 w1].
      destruct (set_payee_state_loop rest a new) as [l2 w2].
      simpl in *. rewrite IH. reflexivity.
Qed.

Lemma set_payee_state_loop_again backs a new :
  fst (set_payee_state_loop (fst (set_payee_state_loop backs a new)) a new)
  = fst (set_payee_state_loop backs a new).
Proof.
  induction backs as [| back rest IH]; simpl.
  - reflexivity.
  - destruct (node_address (payee_route back) =? a) eqn:Hm; simpl.
    + rewrite Hm. reflexivity.
    + destruct (set_payee_state_loop rest a new) as [l1 w1] eqn:Hl.
      simpl in *. rewrite Hm.
      destruct (set_payee_state_loop l1 a new) as [l2 w2].
      simpl in *. rewrite IH. reflexivity.
Qed.

Lemma reveal_update_with_payee_state p new :
  reveal_update (with_payee_state p new)
  = with_payee_state (reveal_update p) new.
Proof.
  unfold reveal_update.
  change (reveal_due (with_payee_state p new)) with (reveal_due p).
  destruct (reveal_due p); reflexivity.
Qed.

Lemma balance_proof_update_with_payee_state b p new :
  balance_proof_update b (with_payee_state p new)
  = with_payee_state (balance_proof_update b p) new.
Proof.
  unfold balance_proof_update.
  change (balance_proof_due b (with_payee_state p new))
    with (balance_proof_due b p).
  destruct (balance_proof_due b p); reflexivity.
Qed.

Lemma balance_proof_update_payee_route b p :
  payee_route (balance_proof_update b p) = payee_route p.
Proof.
  unfold balance_proof_update. destruct (balance_proof_due b p); reflexivity.
Qed.

(** After its update a pair is due for no further balance proof. *)
Lemma balance_proof_due_after b p :
  balance_proof_due b (balance_proof_update b p) = false.
Proof.
  unfold balance_proof_update.
  destruct (balance_proof_due b p) eqn:Hdue; [ | exact Hdue ].
  unfold balance_proof_due.
  cbn [with_payee_transfer payee_transfer set_state state_attr].
  replace (str_in "payee_balance_proof" STATE_TRANSFER_PAYED)
    with true by reflexivity.
  cbn [negb]. rewrite andb_false_r. reflexivity.
Qed.

(** After both updates a pair is due for no further reveal. *)
Lemma reveal_due_after b p :
  reveal_due (balance_proof_update b (reveal_update p)) = false.
Proof.
  assert (reveal_due (reveal_update p) = false) as Hreveal.
  { unfold reveal_update. destruct (reveal_due p) eqn:Hdue; [ | exact Hdue ].
    unfold reveal_due.
    cbn [with_payer_transfer payee_transfer payer_transfer set_state
         state_attr].
    destruct (state_attr (payee_transfer p)); [ | reflexivity ].
    replace (str_in "payer_secret_revealed" STATE_SECRET_KNOWN)
      with true by reflexivity.
    cbn [negb]. apply andb_false_r. }
  unfold balance_proof_update.
  destruct (balance_proof_due b (reveal_update p)) eqn:Hbp;
    [ | exact Hreveal ].
  unfold reveal_due in *. unfold balance_proof_due in Hbp.
  cbn [with_payee_transfer payee_transfer payer_transfer set_state
       state_attr].
  destruct (state_attr (payee_transfer (reveal_update p))) as [ps |];
    [ | discriminate ].
  destruct (state_attr (payer_transfer (reveal_update p))) as [qs |];
    [ | reflexivity ].
  apply andb_true_iff in Hbp. destruct Hbp as (Hbp & _).
  apply andb_true_iff in Hbp. destruct Hbp as (Hknown & _).
  rewrite Hknown in Hreveal. cbn [andb] in Hreveal.
  rewrite Hreveal. apply andb_false_r.
Qed.

Lemma walks_settle b p :
  let q := balance_proof_update b (reveal_update p) in
  balance_proof_update b (reveal_update q) = q /\
  reveal_update q = q /\
  balance_proof_due b q = false /\
  reveal_due q = false.
Proof.
  cbv zeta.
  pose proof (reveal_due_after b p) as Hr.
  pose proof (balance_proof_due_after b (reveal_update p)) as Hb.
  assert (reveal_update (balance_proof_update b (reveal_update p))
          = balance_proof_update b (reveal_update p)) as Hfix
    by (unfold reveal_update at 1; rewrite Hr; reflexivity).
  rewrite Hfix. repeat split; try assumption.
  unfold balance_proof_update at 1. rewrite Hb. reflexivity.
Qed.

Lemma revealsecret_step_Ok_readable our p p' e :
  revealsecret_step our p = Ok (p', e) -> readable p.
Proof.
  unfold revealsecret_step, get_state, readable. intros E.
  destruct (state_attr (payee_transfer p)); [ | discriminate ].
  destruct (state_attr (payer_transfer p)); [ | discriminate ].
  split; discriminate.
Qed.

(** [secret_learned] returns only if the walks could read every pair. *)
Lemma secret_learned_Ok_readable state s a new iteration :
  secret_learned state s a new = Ok iteration ->
  str_in new STATE_SECRET_KNOWN = true /\
  str_in new valid_payee_states = true /\
  Forall readable (transfers_pair state).
Proof.
  unfold secret_learned. intros E. inv_bind_as E u Hu.
  apply assert_Ok in Hu. fold (learn_secret state s) in E.
  inv_bind_as E r0 H0. destruct r0 as [pairs wrong_order].
  inv_bind_as E r1 H1. destruct r1 as [state1 secret_reveal].
  assert (str_in new valid_payee_states = true) as Hvalid.
  { unfold set_payee_state_and_check_reveal_order in H0.
    inv_bind_as H0 v Hv. apply assert_Ok in Hv. exact Hv. }
  split; [ exact Hu | ]. split; [ exact Hvalid | ].
  assert (pairs = learn_pairs state s a new) as ->.
  { unfold set_payee_state_and_check_reveal_order in H0.
    inv_bind_as H0 v Hv. unfold learn_pairs.
    destruct (set_payee_state_loop
                (rev (transfers_pair (learn_secret state s))) a new)
      as [backs wrong].
    destruct wrong; injection H0 as <- _; reflexivity. }
  unfold events_for_revealsecret in H1. inv_bind_as H1 r3 H3.
  destruct r3 as [pairs1 evs1]. simpl in H3.
  apply for_reversed_Forall2 in H3.
  pose proof (learn_pairs_same_legs state s a new) as Hlegs.
  clear - H3 Hlegs.
  revert pairs1 H3.
  induction Hlegs as [| p q l l' Hpq Hlegs IH]; intros pairs1 H3.
  - constructor.
  - inversion H3 as [| ? q' ? l'' (e & Hstep) Hrest]; subst.
    constructor; [ | eapply IH; exact Hrest ].
    apply revealsecret_step_Ok_readable in Hstep.
    destruct Hpq as (_ & _ & (_ & _ & E1) & (_ & _ & E2)).
    unfold readable in *. rewrite <- E1, <- E2. exact Hstep.
Qed.

Lemma learn_pairs_readable state s a new :
  Forall readable (transfers_pair state) ->
  Forall readable (learn_pairs state s a new).
Proof.
  intros Hr.
  eapply Forall_Forall2; [ | exact Hr | apply learn_pairs_same_legs ].
  intros p q Hp Hpq. apply (proj1 (same_legs_due 0 p q Hpq)). exact Hp.
Qed.

Lemma updates_readable b p :
  readable p -> readable (balance_proof_update b (reveal_update p)).
Proof.
  unfold readable, balance_proof_update, reveal_update. intros (H1 & H2).
  destruct (reveal_due p);
    match goal with
    | |- context [ balance_proof_due b ?q ] =>
        destruct (balance_proof_due b q)
    end;
    simpl; split; assumption || discriminate.
Qed.

Lemma flat_map_all_nil {X Y : Type} (f : X -> list Y) (l : list X) :
  (forall x, In x l -> f x = []) -> flat_map f l = [].
Proof.
  induction l as [| a l IH]; simpl; intros H; [ reflexivity | ].
  rewrite (H a) by (left; reflexivity).
  apply IH. intros x Hx. apply H. right. exact Hx.
Qed.

Lemma map_fixed {X : Type} (f : X -> X) (l : list X) :
  (forall x, In x l -> f x = x) -> map f l = l.
Proof.
  induction l as [| a l IH]; simpl; intros H; [ reflexivity | ].
  rewrite (H a) by (left; reflexivity).
  rewrite IH; [ reflexivity | ]. intros x Hx. apply H. right. exact Hx.
Qed.

(** X12: a secret reveal can be replayed.  If [handle_secretreveal]
    returns, handling the same reveal again on the state it returned
    changes nothing and emits no event: no second SendRevealSecret and no
    second SendBalanceProof go out. *)
Theorem handle_secretreveal_replay :
  forall sha3 state sender s iteration state1,
    handle_secretreveal sha3 state sender s = Ok iteration ->
    new_state iteration = Some state1 ->
    handle_secretreveal sha3 state1 sender s
    = Ok (mkIteration (Some state1) []).
Proof.
  intros sha3 state sender s iteration state1 E Hst.
  unfold handle_secretreveal in E.
  destruct (sha3 s =? state_hashlock state) eqn:Hhash.
  2:{ injection E as <-. simpl in Hst. injection Hst as <-.
      unfold handle_secretreveal. rewrite Hhash. reflexivity. }
  destruct (secret_learned_Ok_readable _ _ _ _ _ E) as (_ & _ & Hr).
  rewrite (secret_learned_readable state s sender "payee_secret_revealed"
             eq_refl eq_refl Hr) in E.
  cbv zeta in E. injection E as <-. simpl in Hst. injection Hst as <-.
  destruct (learn_secret_frame state s)
    as ((Hour & Hh & _ & _) & Hblock & Hsecret & _).
  set (b := block_number state) in *.
  set (pairs1 := learn_pairs state s sender "payee_secret_revealed") in *.
  set (g := fun p => balance_proof_update b (reveal_update p)).
  assert (map (balance_proof_update b) (map reveal_update pairs1)
          = map g pairs1) as Hg by (rewrite map_map; reflexivity).
  rewrite Hg.
  set (state1 := with_transfers_pair (learn_secret state s) (map g pairs1)).
  assert (Forall readable pairs1) as Hr1
    by (apply learn_pairs_readable; exact Hr).
  assert (Forall readable (transfers_pair state1)) as Hr2.
  { simpl. apply Forall_forall. intros q Hq.
    apply in_map_iff in Hq. destruct Hq as (p & <- & Hp).
    apply updates_readable. rewrite Forall_forall in Hr1. auto. }
  assert (learn_secret state1 s = state1) as Hlearn.
  { unfold learn_secret. simpl state_secret. rewrite Hsecret. reflexivity. }
  assert (learn_pairs state1 s sender "payee_secret_revealed" = map g pairs1)
    as Hpairs.
  { unfold learn_pairs. rewrite Hlearn. simpl transfers_pair.
    rewrite <- map_rev.
    rewrite set_payee_state_loop_map.
    - unfold pairs1, learn_pairs. rewrite rev_involutive.
      rewrite set_payee_state_loop_again. rewrite map_rev. reflexivity.
    - intros p. unfold g. rewrite balance_proof_update_payee_route.
      apply (proj2 (reveal_update_payee p)).
    - intros p. unfold g.
      rewrite reveal_update_with_payee_state.
      apply balance_proof_update_with_payee_state. }
  unfold handle_secretreveal.
  replace (state_hashlock state1) with (state_hashlock state)
    by (symmetry; exact Hh).
  rewrite Hhash.
  rewrite (secret_learned_readable state1 s sender "payee_secret_revealed"
             eq_refl eq_refl Hr2).
  cbv zeta. rewrite Hpairs, Hlearn.
  replace (block_number state1) with b by (symmetry; exact Hblock).
  assert (forall q, In q (map g pairs1) ->
                    balance_proof_update b (reveal_update q) = q /\
                    reveal_update q = q /\
                    balance_proof_due b q = false /\
                    reveal_due q = false) as Hsettled.
  { intros q Hq. apply in_map_iff in Hq. destruct Hq as (p & <- & _).
    apply (walks_settle b p). }
  rewrite (map_fixed reveal_update (map g pairs1))
    by (intros q Hq; apply (Hsettled q Hq)).
  rewrite (map_fixed (balance_proof_update b) (map g pairs1)).
  2:{ intros q Hq. destruct (Hsettled q Hq) as (H1 & H2 & _).
      rewrite H2 in H1. exact H1. }
  rewrite !flat_map_all_nil.
  - reflexivity.
  - intros q Hq. apply in_rev in Hq. unfold balance_proof_events.
    rewrite (proj1 (proj2 (proj2 (Hsettled q Hq)))). reflexivity.
  - intros q Hq. apply in_rev in Hq. unfold reveal_events.
    rewrite (proj2 (proj2 (proj2 (Hsettled q Hq)))). reflexivity.
Qed.

(** The single-pair happy path, replayed. *)
Lemma handle_secretreveal_replay_example :
  handle_secretreveal Scenario.sha3
    (Scenario.state_with 10 (Some Scenario.S)
       (mkPair Scenario.R_A
          (set_state (set_transfer_secret Scenario.from_transfer Scenario.S)
                     "payer_secret_revealed")
          Scenario.R_B
          (set_state (set_transfer_secret Scenario.payee_transfer1 Scenario.S)
                     "payee_balance_proof")
          "payer_pending" "payee_secret_revealed"))
    Scenario.B Scenario.S
  = Ok (mkIteration
          (Some (Scenario.state_with 10 (Some Scenario.S)
                   (mkPair Scenario.R_A
                      (set_state
                         (set_transfer_secret Scenario.from_transfer Scenario.S)
                         "payer_secret_revealed")
                      Scenario.R_B
                      (set_state
                         (set_transfer_secret Scenario.payee_transfer1
                                              Scenario.S)
                         "payee_balance_proof")
                      "payer_pending" "payee_secret_revealed")))
          []).
Proof.
  apply (handle_secretreveal_replay Scenario.sha3
           (Scenario.state_with 10 None
              (Scenario.pair_with "payer_pending" "payee_secret_revealed"
                                  "payer_pending" "payee_pending"))
           Scenario.B Scenario.S
           (mkIteration
              (Some (Scenario.state_with 10 (Some Scenario.S)
                       (mkPair Scenario.R_A
                          (set_state
                             (set_transfer_secret Scenario.from_transfer
                                                  Scenario.S)
                             "payer_secret_revealed")
                          Scenario.R_B
                          (set_state
                             (set_transfer_secret Scenario.payee_transfer1
                                                  Scenario.S)
                             "payee_balance_proof")
                          "payer_pending" "payee_secret_revealed")))
              [ SendRevealSecret 1 (Some Scenario.S) Scenario.A Scenario.N;
                SendBalanceProof 1 Scenario.B ])).
  - reflexivity.
  - reflexivity.
Defined.

(** ** Initialization *)

(** X13: what an ActionInitMediator does to the cleared state.  Unless the
    payer channel is marked closed at a later block the transition returns,
    in one of two ways.  Either a route was found: the new state holds
    exactly one pair, whose payer leg is the given route and transfer, has
    no secret yet, takes its hashlock from the transfer, and the only event
    is the SendMediatedTransfer of the payee transfer.  Or no pair could be
    built: the state is cleared again and at most one SendRefundTransfer
    goes back to the payer's node, with a lock that expires after the
    current block. *)
Theorem init_mediator_outcome :
  forall sha3 update_route our routes0 b from_route from_transfer,
    (forall cb, close_block from_route = Some cb -> cb <= b) ->
    exists iteration,
      state_transition sha3 update_route None
        (ActionInitMediator our routes0 b from_route from_transfer)
      = Ok iteration /\
      ((exists state p recipient,
          new_state iteration = Some state /\
          transfers_pair state = [p] /\
          payer_route p = from_route /\
          payer_transfer p = from_transfer /\
          our_address state = our /\
          block_number state = b /\
          state_hashlock state = hashlock from_transfer /\
          state_secret state = None /\
          events iteration
          = [ SendMediatedTransfer (payee_transfer p) recipient ])
       \/
       (new_state iteration = None /\
        (events iteration = [] \/
         exists e,
           b < e /\
           events iteration
           = [ SendRefundTransfer (identifier from_transfer)
                 (token from_transfer) (amount from_transfer)
                 (hashlock from_transfer) e (node_address from_route) ]))).
Proof.
  intros sha3 update_route our routes0 b from_route from_transfer Hcb.
  unfold state_transition.
  set (state0 := new_MediatorState our routes0 b (hashlock from_transfer)).
  destruct (get_timeout_blocks_returns from_route from_transfer
              (block_number state0) Hcb) as (tb & Htb).
  destruct (mediate_transfer_cases state0 from_route from_transfer tb Htb)
    as [(route & rs & Hpos & Hroute & E) | (rs & Hrs & E)];
    rewrite E; cbn [bind]; eexists; (split; [ reflexivity | ]).
  - left. do 3 eexists. simpl. repeat split; reflexivity.
  - right. simpl. split; [ reflexivity | ].
    unfold events_for_refund_transfer.
    destruct (Z.gtb_spec (tb - reveal_timeout from_route) 0) as [Hgt | Hle].
    + right. eexists. split; [ | reflexivity ]. lia.
    + left. reflexivity.
Qed.

Lemma init_mediator_outcome_scenario1 :
  exists iteration,
    state_transition Scenario.sha3 Scenario.update_route None Scenario.init1
    = Ok iteration.
Proof.
  destruct (init_mediator_outcome Scenario.sha3 Scenario.update_route
              Scenario.N (mkRoutesState [Scenario.R_B] [] []) 10
              Scenario.R_A Scenario.from_transfer)
    as (iteration & E & _).
  - intros cb Hcb. discriminate Hcb.
  - exists iteration. exact E.
Defined.

(** ** Predicates *)

(** X14: the two lock predicates are consistent and monotone in the block
    number.  While it is safe to wait for a lock, with a non-negative
    reveal timeout, the lock is valid; once waiting is unsafe it stays
    unsafe at every later block, and once a lock has expired it stays
    expired. *)
Theorem safe_to_wait_implies_lock_valid :
  forall b transfer reveal,
    0 <= reveal ->
    (is_safe_to_wait b transfer reveal = true ->
     is_lock_valid b transfer = true) /\
    (forall b', b <= b' ->
       is_safe_to_wait b transfer reveal = false ->
       is_safe_to_wait b' transfer reveal = false) /\
    (forall b', b <= b' ->
       is_lock_valid b transfer = false ->
       is_lock_valid b' transfer = false).
Proof.
  intros b transfer reveal Hreveal.
  unfold is_safe_to_wait, is_lock_valid.
  split; [ | split ].
  - intros H. apply Z.ltb_lt in H. apply Z.leb_le. lia.
  - intros b' Hb H. apply Z.ltb_ge in H. apply Z.ltb_ge. lia.
  - intros b' Hb H. apply Z.leb_gt in H. apply Z.leb_gt. lia.
Qed.

Lemma safe_to_wait_implies_lock_valid_scenario4 :
  is_safe_to_wait 89 Scenario.from_transfer 5 = true /\
  is_lock_valid 89 Scenario.from_transfer = true /\
  is_safe_to_wait 95 Scenario.from_transfer 5 = false.
Proof.
  split; [ reflexivity | ]. split; [ | reflexivity ].
  apply (proj1 (safe_to_wait_implies_lock_valid 89 Scenario.from_transfer 5
                  ltac:(lia))).
  reflexivity.
Defined.

(** ** The safety margin of every pair *)

Lemma pair_margin_same_margin p q :
  same_margin p q -> pair_margin p -> pair_margin q.
Proof.
  unfold same_margin, pair_margin. intros (-> & -> & ->) H. exact H.
Qed.

Lemma Forall_pair_margin_same_margin l l' :
  Forall2 same_margin l l' -> Forall pair_margin l -> Forall pair_margin l'.
Proof.
  intros HR HP. eapply Forall_Forall2; [ | exact HP | exact HR ].
  intros p q Hp Hpq. eapply pair_margin_same_margin; eauto.
Qed.

Lemma same_margin_trans p q r :
  same_margin p q -> same_margin q r -> same_margin p r.
Proof.
  unfold same_margin. intros (A & B & C) (D & E & F).
  repeat split; congruence.
Qed.

Lemma for_reversed_same_margin body pairs pairs' evs :
  (forall p p' e, body p = Ok (p', e) -> same_margin p p') ->
  for_reversed body pairs = Ok (pairs', evs) ->
  Forall2 same_margin pairs pairs'.
Proof.
  intros Hb E. apply for_reversed_Forall2 in E.
  eapply Forall2_impl; [ | exact E ].
  intros p p' (e & Hp). eapply Hb; exact Hp.
Qed.

Lemma handle_block_step_same_margin b p p' e :
  handle_block_step b p = Ok (p', e) -> same_margin p p'.
Proof.
  intros E. destruct (handle_block_step_effect _ _ _ _ E)
    as ((_ & Ht1 & Hr & Ht2) & _).
  unfold same_margin. rewrite Ht1, Hr, Ht2. repeat split.
Qed.

Lemma revealsecret_step_same_margin our p p' e :
  revealsecret_step our p = Ok (p', e) -> same_margin p p'.
Proof.
  unfold revealsecret_step. intros E.
  inv_bind_as E payee_st H1. inv_bind_as E payer_st H2.
  destruct (str_in payee_st STATE_SECRET_KNOWN &&
            negb (str_in payer_st STATE_SECRET_KNOWN));
    injection E as <- _; repeat split; reflexivity.
Qed.

Lemma balanceproof_step_same_margin b p p' e :
  balanceproof_step b p = Ok (p', e) -> same_margin p p'.
Proof.
  unfold balanceproof_step. intros E. inv_bind_as E payee_st H1.
  destruct (str_in payee_st STATE_SECRET_KNOWN &&
            negb (str_in payee_st STATE_TRANSFER_PAYED) &&
            is_lock_valid b (payee_transfer p));
    injection E as <- _; repeat split; reflexivity.
Qed.

Lemma handle_block_margins state b iteration :
  handle_block state b = Ok iteration ->
  margins_kept (Some state) -> margins_kept (new_state iteration).
Proof.
  unfold handle_block. intros E Hm. inv_bind_as E r1 H1.
  destruct r1 as [pairs evs]. injection E as <-. simpl in *.
  eapply Forall_pair_margin_same_margin; [ | exact Hm ].
  eapply for_reversed_same_margin; [ | exact H1 ].
  intros p p' e. apply handle_block_step_same_margin.
Qed.

Lemma secret_learned_margins state s a new iteration :
  secret_learned state s a new = Ok iteration ->
  margins_kept (Some state) -> margins_kept (new_state iteration).
Proof.
  unfold secret_learned. intros E Hm. inv_bind_as E u Hu.
  fold (learn_secret state s) in E.
  inv_bind_as E r0 H0. destruct r0 as [pairs wrong_order].
  inv_bind_as E r1 H1. destruct r1 as [state1 secret_reveal].
  inv_bind_as E r2 H2. destruct r2 as [state2 balance_proof].
  injection E as <-.
  assert (pairs = learn_pairs state s a new) as Hpairs.
  { unfold set_payee_state_and_check_reveal_order in H0.
    inv_bind_as H0 v Hv. unfold learn_pairs.
    destruct (set_payee_state_loop
                (rev (transfers_pair (learn_secret state s))) a new)
      as [backs wrong].
    destruct wrong; injection H0 as <- _; reflexivity. }
  unfold events_for_revealsecret in H1. inv_bind_as H1 r3 H3.
  destruct r3 as [pairs1 evs1]. injection H1 as <- _.
  unfold events_for_balanceproof in H2. inv_bind_as H2 r4 H4.
  destruct r4 as [pairs2 evs2]. injection H2 as <- _.
  simpl in *.
  eapply Forall_pair_margin_same_margin;
    [ eapply for_reversed_same_margin; [ | exact H4 ];
      intros p p' e; apply balanceproof_step_same_margin | ].
  eapply Forall_pair_margin_same_margin;
    [ eapply for_reversed_same_margin; [ | exact H3 ];
      intros p p' e; apply revealsecret_step_same_margin | ].
  rewrite Hpairs.
  eapply Forall_Forall2;
    [ | exact Hm | apply (learn_pairs_same_legs state s a new) ].
  intros p q Hp (_ & Hr & (_ & E1 & _) & (_ & E2 & _)).
  unfold pair_margin in *. rewrite Hr, E1, E2. exact Hp.
Qed.

Lemma mediate_transfer_margins state r t iteration :
  mediate_transfer state r t = Ok iteration ->
  margins_kept (Some state) -> margins_kept (new_state iteration).
Proof.
  intros E Hm.
  assert (exists tb, get_timeout_blocks r t (block_number state) = Ok tb)
    as (tb & Htb).
  { unfold mediate_transfer in E.
    destruct (get_timeout_blocks r t (block_number state)) as [tb | e];
      [ eauto | discriminate ]. }
  pose proof (get_timeout_blocks_bound _ _ _ _ Htb) as Hbound.
  destruct (mediate_transfer_cases state r t tb Htb)
    as [(route & rs & Hpos & Hroute & E') | (rs & _ & E')];
    rewrite E' in E; injection E as <-; simpl in *; [ | exact Hm ].
  apply Forall_app. split; [ exact Hm | ].
  constructor; [ | constructor ].
  unfold pair_margin, TRANSIT_BLOCKS. simpl. lia.
Qed.

Section Margins.

Variable sha3 : Z -> Z.
Variable update_route : MediatorState -> RouteState -> MediatorState.

(** The route update leaves the pairs alone. *)
Hypothesis update_route_pairs :
  forall state route,
    transfers_pair (update_route state route) = transfers_pair state.

Lemma state_transition_margins state state_change iteration :
  state_transition sha3 update_route state state_change = Ok iteration ->
  margins_kept state -> margins_kept (new_state iteration).
Proof.
  unfold state_transition. intros E Hm. inv_bind_as E it Hit.
  assert (margins_kept (new_state it)) as Hit'.
  { assert (forall st sender s,
              handle_secretreveal sha3 st sender s = Ok it ->
              margins_kept (Some st) -> margins_kept (new_state it))
      as Hreveal.
    { intros st sender s Hr Hst. unfold handle_secretreveal in Hr.
      destruct (sha3 s =? state_hashlock st);
        [ eapply secret_learned_margins; eauto
        | injection Hr as <-; exact Hst ]. }
    assert (forall st channel sender s,
              handle_contractwithdraw sha3 st channel sender s = Ok it ->
              margins_kept (Some st) -> margins_kept (new_state it))
      as Hwithdraw.
    { intros st channel sender s Hw Hst. unfold handle_contractwithdraw in Hw.
      inv_bind_as Hw h Hh. inv_bind_as Hw u Hu.
      destruct (contractwithdraw_loop (transfers_pair st) channel);
        [ discriminate | eapply secret_learned_margins; eauto ]. }
    assert (forall st node,
              handle_balanceproof st node = Ok it ->
              margins_kept (Some st) -> margins_kept (new_state it))
      as Hproof.
    { intros st node Hb Hst. unfold handle_balanceproof in Hb.
      injection Hb as <-. simpl in *. apply Forall_forall.
      intros q Hq. apply in_map_iff in Hq. destruct Hq as (p & <- & Hp).
      rewrite Forall_forall in Hst. pose proof (Hst p Hp) as Hmp.
      destruct (channel_address (payer_route p) =? node); exact Hmp. }
    destruct state as [state |].
    - destruct (state_secret state);
        destruct state_change; try discriminate;
        try (eapply handle_block_margins; eauto; fail);
        try (eapply Hreveal; eauto; fail);
        try (eapply Hwithdraw; eauto; fail);
        try (eapply Hproof; eauto; fail).
      + unfold handle_routechange in Hit. injection Hit as <-. simpl in *.
        rewrite update_route_pairs. exact Hm.
      + unfold handle_refundtransfer in Hit.
        inv_bind_as Hit u Hu. inv_bind_as Hit last_pair Hlast.
        destruct (is_valid_refund (payee_transfer last_pair) sender transfer);
          [ | injection Hit as <-; exact Hm ].
        eapply mediate_transfer_margins; [ exact Hit | exact Hm ].
    - destruct state_change; try discriminate.
      eapply mediate_transfer_margins; [ exact Hit | constructor ]. }
  unfold clear_if_finalized in E.
  destruct (new_state it) as [st |] eqn:Hst; [ | discriminate ].
  destruct (forallb pair_finalized (transfers_pair st));
    injection E as <-; simpl; [ exact I | rewrite Hst; exact Hit' ].
Qed.

(** X15: every pair of every state the machine reaches keeps the safety
    margin: its payee lock expires at least
    [payee_route.reveal_timeout + TRANSIT_BLOCKS] blocks before its payer
    lock, whatever state changes were delivered since the cleared state. *)
Theorem every_pair_keeps_its_margin :
  forall changes state,
    run sha3 update_route None changes = Ok (Some state) ->
    Forall pair_margin (transfers_pair state).
Proof.
  assert (forall changes start final,
            margins_kept start ->
            run sha3 update_route start changes = Ok final ->
            margins_kept final) as Hrun.
  { induction changes as [| state_change rest IH];
      simpl; intros start final Hm E.
    - injection E as <-. exact Hm.
    - inv_bind_as E iteration Hstep.
      eapply IH; [ | exact E ].
      eapply state_transition_margins; eauto. }
  intros changes state E. exact (Hrun changes None (Some state) I E).
Qed.

End Margins.

(** The refund scenario: both pairs keep the margin, [53 + 5 + 2 <= 100]
    and [45 + 5 + 2 <= 52]. *)
Lemma every_pair_keeps_its_margin_refund :
  Forall pair_margin (transfers_pair Refund.state2).
Proof.
  apply (every_pair_keeps_its_margin Scenario.sha3 Scenario.update_route
           (fun _ _ => eq_refl) [Refund.init; Refund.refund] Refund.state2).
  reflexivity.
Defined.

(** ** Balance-proof intake *)



(** ** The sub-states that the secret walks read *)

Lemma learn_pairs_nonempty state s a new :
  transfers_pair state <> [] -> learn_pairs state s a new <> [].
Proof.
  intros Hne Hnil.
  pose proof (learn_pairs_same_legs state s a new) as HF.
  rewrite Hnil in HF. inversion HF as [Hl |]. congruence.
Qed.

(** [secret_learned] up to its two walks. *)
Lemma secret_learned_walks state s a new :
  str_in new STATE_SECRET_KNOWN = true ->
  str_in new valid_payee_states = true ->
  secret_learned state s a new
  = ('(state1, secret_reveal) <-
       events_for_revealsecret
         (with_transfers_pair (learn_secret state s)
            (learn_pairs state s a new)) ;;
     '(state2, balance_proof) <- events_for_balanceproof state1 ;;
     Ok (mkIteration (Some state2) ([] ++ secret_reveal ++ balance_proof))).
Proof.
  intros Hk Hv. unfold secret_learned. rewrite Hk. cbn [assert bind].
  fold (learn_secret state s).
  unfold set_payee_state_and_check_reveal_order. rewrite Hv.
  cbn [assert bind]. unfold learn_pairs.
  destruct (set_payee_state_loop (rev (transfers_pair (learn_secret state s)))
                                 a new) as [backs wrong].
  destruct wrong; reflexivity.
Qed.

Lemma for_each_first_raises body back rest e :
  body back = Raise e -> for_each body (back :: rest) = Raise e.
Proof. intros Hb. simpl. rewrite Hb. reflexivity. Qed.

(** C3 (defect of the code): the two walks of [secret_learned] do not look
    at the sub-states of the pair.  [events_for_revealsecret] and
    [events_for_balanceproof] read [pair.payee_transfer.state] and
    [pair.payer_transfer.state], whereas [secret_learned] has just recorded
    the reveal in [pair.payee_state].  So for a secret that hashes to the
    hashlock: on a state whose payee transfers carry no [state], as every
    transfer built by [next_transfer_pair] does, the reveal raises
    AttributeError; and on a state whose transfers carry a [state] outside
    SECRET_KNOWN, the payee state of the revealing hop is set but neither a
    SendRevealSecret nor a SendBalanceProof is emitted, whatever the
    sub-states of the pairs are. *)
Theorem handle_secretreveal_ignores_pair_states :
  forall sha3 state sender s,
    sha3 s = state_hashlock state ->
    transfers_pair state <> [] ->
    (Forall (fun p => state_attr (payee_transfer p) = None)
            (transfers_pair state) ->
     handle_secretreveal sha3 state sender s = Raise AttributeError) /\
    (Forall (fun p => exists payee_st payer_st,
                 state_attr (payee_transfer p) = Some payee_st /\
                 state_attr (payer_transfer p) = Some payer_st /\
                 str_in payee_st STATE_SECRET_KNOWN = false)
            (transfers_pair state) ->
     handle_secretreveal sha3 state sender s
     = Ok (mkIteration
             (Some (with_transfers_pair (learn_secret state s)
                      (learn_pairs state s sender "payee_secret_revealed")))
             [])).
Proof.
  intros sha3 state sender s Hhash Hne.
  pose proof (learn_pairs_same_legs state s sender "payee_secret_revealed")
    as Hlegs.
  pose proof (learn_pairs_nonempty state s sender "payee_secret_revealed" Hne)
    as Hne1.
  unfold handle_secretreveal. rewrite Hhash, Z.eqb_refl.
  set (pairs1 := learn_pairs state s sender "payee_secret_revealed") in *.
  split.
  - intros Hnone.
    rewrite (secret_learned_walks state s sender "payee_secret_revealed"
               eq_refl eq_refl).
    fold pairs1.
    assert (Forall (fun p => state_attr (payee_transfer p) = None) pairs1)
      as Hnone1.
    { eapply Forall_Forall2; [ | exact Hnone | exact Hlegs ].
      intros p q Hp (_ & _ & _ & (_ & _ & E)). rewrite E. exact Hp. }
    unfold events_for_revealsecret, for_reversed. simpl transfers_pair.
    apply Forall_rev in Hnone1.
    destruct (rev pairs1) as [| back rest] eqn:Hrev.
    + exfalso. apply Hne1. rewrite <- (rev_involutive pairs1), Hrev.
      reflexivity.
    + inversion Hnone1 as [| ? ? Hback _]; subst.
      rewrite (for_each_first_raises _ back rest AttributeError);
        [ reflexivity | ].
      unfold revealsecret_step, get_state. rewrite Hback. reflexivity.
  - intros Hread.
    assert (Forall readable (transfers_pair state)) as Hr.
    { eapply Forall_impl; [ | exact Hread ].
      intros p (ps & qs & H1 & H2 & _). unfold readable.
      rewrite H1, H2. split; discriminate. }
    rewrite (secret_learned_readable state s sender "payee_secret_revealed"
               eq_refl eq_refl Hr).
    cbv zeta. fold pairs1.
    assert (forall q, In q pairs1 ->
                      reveal_due q = false /\
                      balance_proof_due (block_number state) q = false)
      as Hquiet.
    { intros q Hq.
      destruct (Forall2_In_r _ _ _ _ Hlegs Hq) as (p & Hp & Hpq).
      destruct (same_legs_due (block_number state) p q Hpq)
        as (_ & -> & ->).
      rewrite Forall_forall in Hread.
      destruct (Hread p Hp) as (ps & qs & H1 & H2 & Hout).
      unfold reveal_due, balance_proof_due. rewrite H1, H2, Hout.
      split; reflexivity. }
    assert (map reveal_update pairs1 = pairs1) as Hfix1.
    { apply map_fixed. intros q Hq. unfold reveal_update.
      rewrite (proj1 (Hquiet q Hq)). reflexivity. }
    rewrite Hfix1.
    assert (map (balance_proof_update (block_number state)) pairs1 = pairs1)
      as Hfix2.
    { apply map_fixed. intros q Hq. unfold balance_proof_update.
      rewrite (proj2 (Hquiet q Hq)). reflexivity. }
    rewrite Hfix2.
    rewrite !flat_map_all_nil.
    + reflexivity.
    + intros q Hq. apply in_rev in Hq. unfold balance_proof_events.
      rewrite (proj2 (Hquiet q Hq)). reflexivity.
    + intros q Hq. apply in_rev in Hq. unfold reveal_events.
      rewrite (proj1 (Hquiet q Hq)). reflexivity.
Qed.

(** The failing input of C3: the state that scenario 1 builds, then the
    reveal of [S] by B.  The reveal raises; and if the transfers carried a
    pending [state], B's pair would be marked [payee_secret_revealed] and
    nothing would be sent. *)
Lemma handle_secretreveal_ignores_pair_states_scenario1 :
  handle_secretreveal Scenario.sha3 Scenario.state1 Scenario.B Scenario.S
  = Raise AttributeError /\
  run Scenario.sha3 Scenario.update_route None
      [ Scenario.init1; ReceiveSecretReveal Scenario.B Scenario.S ]
  = Raise AttributeError /\
  handle_secretreveal Scenario.sha3
    (Scenario.state_with 10 None
       (Scenario.pair_with "payer_pending" "payee_pending"
                           "payer_pending" "payee_pending"))
    Scenario.B Scenario.S
  = Ok (mkIteration
          (Some (Scenario.state_with 10 (Some Scenario.S)
                   (mkPair Scenario.R_A
                      (set_state
                         (set_transfer_secret Scenario.from_transfer Scenario.S)
                         "payer_pending")
                      Scenario.R_B
                      (set_state
                         (set_transfer_secret Scenario.payee_transfer1
                                              Scenario.S)
                         "payee_pending")
                      "payer_pending" "payee_secret_revealed")))
          []).
Proof.
  split; [ | split; [ reflexivity | ] ].
  - apply (proj1 (handle_secretreveal_ignores_pair_states
                    Scenario.sha3 Scenario.state1 Scenario.B Scenario.S
                    eq_refl ltac:(discriminate))).
    repeat constructor.
  - rewrite (proj2 (handle_secretreveal_ignores_pair_states
                      Scenario.sha3
                      (Scenario.state_with 10 None
                         (Scenario.pair_with "payer_pending" "payee_pending"
                                             "payer_pending" "payee_pending"))
                      Scenario.B Scenario.S
                      eq_refl ltac:(discriminate))).
    + reflexivity.
    + constructor; [ | constructor ].
      exists "payee_pending", "payer_pending".
      split; [ reflexivity | ]. split; reflexivity.
Defined.
